(** * mapsDB.py: the geo-tiled fetch-and-aggregate pipeline

    A shallow embedding of [src/mapsDB.py] and the properties its
    specification states about it.

    - Python values that come out of [response.json()] are the inductive
      [json]; a Python [dict] is a [gmap string json], a Python [set] of
      hashable keys a [gset].
    - Python exceptions are the inductive [exn]; a pure expression that can
      raise returns a [res].
    - Code that talks to the outside (HTTP, the file system, [print],
      [time.sleep]) is a function from a world to an outcome, the list of
      events of the run and the world after it (the type [M]); the world
      is a parameter, so every statement holds for every backend.
    - Python's [float] enters only through the interface [PyFloat], so that
      the tile arithmetic can be read at any number type; the geometric
      statements are proved at the rationals [Q].

    [load_cities] and [main] (the loop over the city list) are not
    modelled. *)

From stdpp Require Import gmap strings pretty list fin_maps sorting.
From Stdlib Require Import Ascii ZArith QArith Lqa.

Set Warnings "-register-all".
#[local] Open Scope Z_scope.
#[local] Open Scope string_scope.
#[local] Open Scope list_scope.

(** ** Values and exceptions *)

Module Py.

(** What [json.loads] can produce.  JSON numbers are modelled as integers:
    the program reads numbers only through the [id] of an element, and the
    fractional numbers of the map service ([lat], [lon]) are never
    inspected. *)
Inductive json :=
  | JNull
  | JBool (b : bool)
  | JInt (z : Z)
  | JStr (s : string)
  | JArr (l : list json)
  | JObj (m : gmap string json).

(** The exceptions the program can meet.  [RuntimeError msg cause] carries
    the [__cause__] set by [raise ... from cause]. *)
Inductive exn :=
  | HTTPError (status : option Z)
  | RequestException (name : string)
  | RuntimeError (msg : string) (cause : option exn)
  | ZeroDivisionError
  | TypeError
  | ValueError
  | KeyError
  | IndexError
  | AttributeError.

(** The outcome of a pure Python expression: a value or a raised exception. *)
Inductive res (A : Type) :=
  | Val (a : A)
  | Exc (e : exn).
Arguments Val {A} a.
Arguments Exc {A} e.

#[export] Instance res_ret : MRet res := fun A a => Val a.
#[export] Instance res_bind : MBind res := fun A B f m =>
  match m with
  | Val a => f a
  | Exc e => Exc e
  end.

(** [bool(v)]: Python truthiness. *)
Definition truthy (v : json) : bool :=
  match v with
  | JNull => false
  | JBool b => b
  | JInt z => negb (Z.eqb z 0)
  | JStr s => negb (String.eqb s "")
  | JArr l => negb (Nat.eqb (length l) 0)
  | JObj m => negb (Nat.eqb (size m) 0)
  end.

(** [a or b], with [b] evaluated only when [a] is falsy. *)
Definition or_else (a b : res json) : res json :=
  v ← a; if truthy v then Val v else b.

(** [d.get(k, default)]: only a dict has the method. *)
Definition dict_get (d : json) (k : string) (dflt : json) : res json :=
  match d with
  | JObj m => Val (default dflt (m !! k))
  | _ => Exc AttributeError
  end.

(** [x[i]] for an integer index [i >= 0]. *)
Definition index_int (x : json) (i : nat) : res json :=
  match x with
  | JArr l => match l !! i with Some v => Val v | None => Exc IndexError end
  | JStr s => match String.get i s with
              | Some c => Val (JStr (String c ""))
              | None => Exc IndexError
              end
  | JObj _ => Exc KeyError
  | _ => Exc TypeError
  end.

(** [x[k]] for a string key [k]. *)
Definition index_str (x : json) (k : string) : res json :=
  match x with
  | JObj m => match m !! k with Some v => Val v | None => Exc KeyError end
  | _ => Exc TypeError
  end.

(** [sep.join(parts)]: every part has to be a [str]. *)
Fixpoint as_strs (parts : list json) : res (list string) :=
  match parts with
  | [] => Val []
  | JStr s :: rest => ss ← as_strs rest; Val (s :: ss)
  | _ :: _ => Exc TypeError
  end.

Definition str_join (sep : string) (parts : list json) : res string :=
  ss ← as_strs parts; Val (String.concat sep ss).

(** Hashable values, up to Python's [==]: [True == 1] and [False == 0]. *)
Inductive hkey :=
  | HNone
  | HNum (z : Z)
  | HStr (s : string).

#[export] Instance hkey_eq_dec : EqDecision hkey.
Proof. solve_decision. Defined.

#[export] Instance hkey_countable : Countable hkey.
Proof.
  refine (inj_countable'
    (fun k => match k with
              | HNone => inl ()
              | HNum z => inr (inl z)
              | HStr s => inr (inr s)
              end)
    (fun t => match t with
              | inl _ => HNone
              | inr (inl z) => HNum z
              | inr (inr s) => HStr s
              end) _).
  intros []; reflexivity.
Defined.

(** [hash(v)]: lists and dicts are unhashable. *)
Definition py_hash (v : json) : res hkey :=
  match v with
  | JNull => Val HNone
  | JBool b => Val (HNum (if b then 1 else 0))
  | JInt z => Val (HNum z)
  | JStr s => Val (HStr s)
  | JArr _ | JObj _ => Exc TypeError
  end.

End Py.
Import Py.

(** ** Element Aggregator: [dedupe_elements] *)

(** The key [(el.get("type"), el.get("id"))] as the set [seen] compares it. *)
Definition element_key (el : json) : res (hkey * hkey) :=
  t ← dict_get el "type" JNull;
  i ← dict_get el "id" JNull;
  ht ← py_hash t;
  hi ← py_hash i;
  Val (ht, hi).

(** The [for el in elems] loop, with its two accumulators. *)
Fixpoint dedupe_loop (elems : list json) (seen : gset (hkey * hkey))
    (out : list json) : res (list json) :=
  match elems with
  | [] => Val out
  | el :: rest =>
      key ← element_key el;
      if bool_decide (key ∈ seen) then dedupe_loop rest seen out
      else dedupe_loop rest ({[key]} ∪ seen) (out ++ [el])
  end.

Definition dedupe_elements (elems : list json) : res (list json) :=
  dedupe_loop elems ∅ [].





(** ** Record Normalizer: [extract_shop_record] *)

Definition addr_keys : list string :=
  ["addr:street"; "addr:housenumber"; "addr:city"; "addr:postcode";
   "addr:state"].

(** [for k in (...): v = tags.get(k); if v: addr_parts.append(v)] *)
Fixpoint addr_loop (tags : json) (keys : list string) (addr_parts : list json)
    : res (list json) :=
  match keys with
  | [] => Val addr_parts
  | k :: rest =>
      v ← dict_get tags k JNull;
      if truthy v then addr_loop tags rest (addr_parts ++ [v])
      else addr_loop tags rest addr_parts
  end.

(** The returned dict literal, in insertion order. *)
Definition extract_shop_record (el : json) (city_name : string)
    : res (list (string * json)) :=
  t0 ← dict_get el "tags" (JObj ∅);
  let tags := if truthy t0 then t0 else JObj ∅ in
  name ← dict_get tags "name" (JStr "");
  phone ← or_else (dict_get tags "contact:phone" JNull)
            (or_else (dict_get tags "phone" JNull)
               (or_else (dict_get tags "telephone" JNull) (Val (JStr ""))));
  email ← or_else (dict_get tags "contact:email" JNull)
            (or_else (dict_get tags "email" JNull) (Val (JStr "")));
  website ← or_else (dict_get tags "website" JNull)
              (or_else (dict_get tags "contact:website" JNull) (Val (JStr "")));
  addr_parts ← addr_loop tags addr_keys [];
  address ← (if negb (Nat.eqb (length addr_parts) 0)
             then s ← str_join ", " addr_parts; Val (JStr s)
             else or_else (dict_get tags "addr:full" JNull) (Val (JStr "")));
  osm_type ← dict_get el "type" JNull;
  osm_id ← dict_get el "id" JNull;
  Val [("city", JStr city_name);
       ("osm_type", osm_type);
       ("osm_id", osm_id);
       ("name", name);
       ("address", address);
       ("phone", phone);
       ("email", email);
       ("website", website)].

(** *** The derivation rules, in the specification's words

    A RawElement carries a mapping from tag names to string values.  The
    rules below are written from the specification (first non-empty wins, in
    the listed priority) and are compared with the code further down. *)

Module NormalizerSpec.

Definition non_empty (tags : gmap string string) (k : string) : option string :=
  match tags !! k with
  | Some v => if String.eqb v "" then None else Some v
  | None => None
  end.

(** The first tag of [keys] with a non-empty value, or the empty string. *)
Fixpoint first_non_empty (keys : list string) (tags : gmap string string)
    : string :=
  match keys with
  | [] => ""
  | k :: rest =>
      match non_empty tags k with
      | Some v => v
      | None => first_non_empty rest tags
      end
  end.

(** The present values among [keys], in the order of [keys]. *)
Definition present_values (keys : list string) (tags : gmap string string)
    : list string :=
  omap (non_empty tags) keys.

Definition address (tags : gmap string string) : string :=
  match present_values addr_keys tags with
  | [] => first_non_empty ["addr:full"] tags
  | parts => String.concat ", " parts
  end.

Definition record (city_name : string) (kind id : json)
    (tags : gmap string string) : list (string * json) :=
  [("city", JStr city_name);
   ("osm_type", kind);
   ("osm_id", id);
   ("name", JStr (default "" (tags !! "name")));
   ("address", JStr (address tags));
   ("phone",
    JStr (first_non_empty ["contact:phone"; "phone"; "telephone"] tags));
   ("email", JStr (first_non_empty ["contact:email"; "email"] tags));
   ("website", JStr (first_non_empty ["website"; "contact:website"] tags))].

End NormalizerSpec.

(** The tag mapping an element dictionary carries: its [tags] entry is a
    dictionary of strings, is [null], or is absent (no tags at all). *)
Inductive has_tags (m : gmap string json) : gmap string string -> Prop :=
  | tags_absent : m !! "tags" = None -> has_tags m ∅
  | tags_null : m !! "tags" = Some JNull -> has_tags m ∅
  | tags_dict t : m !! "tags" = Some (JObj (JStr <$> t)) -> has_tags m t.

(** The value of a field of a record (a dict literal). *)
Fixpoint field (r : list (string * json)) (k : string) : option json :=
  match r with
  | [] => None
  | (k', v) :: rest => if String.eqb k' k then Some v else field rest k
  end.


(** ** Numbers

    The operations the program applies to Python floats.  [fdiv] is the
    quotient by a non-zero divisor; division by zero is raised before it is
    called (see [truediv]).  [of_int] is the conversion of an int a float
    can hold (Python raises OverflowError beyond that range). *)
Class PyFloat (F : Type) := {
  fadd : F -> F -> F;
  fsub : F -> F -> F;
  fmul : F -> F -> F;
  fdiv : F -> F -> F;
  of_int : Z -> F;               (* float(n) of an int *)
  of_str : string -> option F;   (* float(s) of a str; None: ValueError *)
  repr : F -> string             (* the text an f-string prints *)
}.

(** Exact arithmetic: the rationals as an instance. *)
Module ExactQ.

Definition digit_of (c : Ascii.ascii) : option Z :=
  let n := Ascii.nat_of_ascii c in
  if (48 <=? n)%nat && (n <=? 57)%nat then Some (Z.of_nat (n - 48)) else None.

(** Decimal digits with at most one point and at least one digit. *)
Fixpoint parse_digits (s : string) (num : Z) (den : positive)
    (dot seen : bool) : option Q :=
  match s with
  | EmptyString => if seen then Some (num # den) else None
  | String c rest =>
      if Ascii.eqb c "."%char then
        if dot then None else parse_digits rest num den true seen
      else
        match digit_of c with
        | Some d =>
            parse_digits rest (10 * num + d)
              (if dot then (10 * den)%positive else den) dot true
        | None => None
        end
  end.

Definition Q_of_str (s : string) : option Q :=
  match s with
  | String "-"%char rest => Qopp <$> parse_digits rest 0 1 false false
  | String "+"%char rest => parse_digits rest 0 1 false false
  | _ => parse_digits s 0 1 false false
  end.

Definition Q_repr (q : Q) : string :=
  pretty (Qnum q) +:+ "/" +:+ pretty (Zpos (Qden q)).

#[export] Instance Q_float : PyFloat Q := {|
  fadd := Qplus;
  fsub := Qminus;
  fmul := Qmult;
  fdiv := Qdiv;
  of_int := inject_Z;
  of_str := Q_of_str;
  repr := Q_repr
|}.

End ExactQ.
Import ExactQ.

(** ** Tile Partitioner: [split_bbox] *)

Section Partitioner.

Context {F : Type} `{PyFloat F}.

(** [x / n] for a float [x] and an int [n]. *)
Definition truediv (x : F) (n : Z) : res F :=
  if Z.eqb n 0 then Exc ZeroDivisionError else Val (fdiv x (of_int n)).

(** The tuple [(s, w, n, e)] appended for the grid cell [(i, j)]. *)
Definition tile (south west lat_step lon_step : F) (i j : Z) : F * F * F * F :=
  let s := fadd south (fmul (of_int i) lat_step) in
  let n := fadd south (fmul (of_int (i + 1)) lat_step) in
  let w := fadd west (fmul (of_int j) lon_step) in
  let e := fadd west (fmul (of_int (j + 1)) lon_step) in
  (s, w, n, e).

(** [range(n)] is [seqZ 0 n]: empty when [n <= 0]. *)
Definition split_bbox (bbox : F * F * F * F) (nx ny : Z)
    : res (list (F * F * F * F)) :=
  let '(south, west, north, east) := bbox in
  lat_step ← truediv (fsub north south) ny;
  lon_step ← truediv (fsub east west) nx;
  Val (foldl (fun boxes i =>
               foldl (fun boxes j =>
                        boxes ++ [tile south west lat_step lon_step i j])
                     boxes (seqZ 0 nx))
             [] (seqZ 0 ny)).

End Partitioner.



(** ** Configuration *)

Definition USER_AGENT : string :=
  "ShopFinderAllCities/1.0 (contact: youremail@example.com)".
Definition NOMINATIM_URL : string := "https://nominatim.openstreetmap.org/search".
Definition OVERPASS_MIRRORS : list string :=
  ["https://overpass-api.de/api/interpreter";
   "https://lz4.overpass-api.de/api/interpreter";
   "https://overpass.openstreetmap.fr/api/interpreter";
   "https://overpass.kumi.systems/api/interpreter"].
Definition TILE_NX : Z := 6.
Definition TILE_NY : Z := 6.
Definition TIMEOUT_PER_REQUEST : Z := 90.
Definition MAX_RETRIES : Z := 3.
(** [BACKOFF_BASE = 2.0] and [SLEEP_BETWEEN_TILES = 1.0]: durations are kept
    as exact numbers of seconds; [2.0 ** attempt] is the exact power of two
    for every attempt a float can hold. *)
Definition BACKOFF_BASE : Z := 2.
Definition SLEEP_BETWEEN_TILES : Z := 1.
Definition OUT_DIR : string := "output_csvs".
Definition FORCE_REWRITE : bool := false.

(** ** [sanitize_filename] *)

(** The whitespace [str.strip] removes, among the ASCII characters. *)
Definition is_space (c : ascii) : bool :=
  let n := nat_of_ascii c in
  ((9 <=? n)%nat && (n <=? 13)%nat) || ((28 <=? n)%nat && (n <=? 32)%nat).

Fixpoint lstrip (l : list ascii) : list ascii :=
  match l with
  | c :: rest => if is_space c then lstrip rest else l
  | [] => []
  end.

Definition strip (s : string) : string :=
  String.string_of_list_ascii
    (rev (lstrip (rev (lstrip (String.list_ascii_of_string s))))).

(** The character class of the regular expression: backslash, slash, colon,
    double quote, star, question mark, angle brackets and bar. *)
Definition unsafe_char (c : ascii) : bool :=
  bool_decide (nat_of_ascii c ∈ [92; 47; 58; 34; 42; 63; 60; 62; 124]%nat).

(** [re.sub(r'[...]+', '_', name)]: each maximal run becomes one underscore. *)
Fixpoint sub_runs (l : list ascii) (in_run : bool) : list ascii :=
  match l with
  | [] => []
  | c :: rest =>
      if unsafe_char c then
        if in_run then sub_runs rest true else "_"%char :: sub_runs rest true
      else c :: sub_runs rest false
  end.

Definition sanitize_filename (name : string) : string :=
  let name := strip name in
  String.string_of_list_ascii (sub_runs (String.list_ascii_of_string name) false).

(** [os.path.join(OUT_DIR, file)] for a relative [file], POSIX separator. *)
Definition path_join (dir file : string) : string := dir +:+ "/" +:+ file.

(** ** [build_overpass_template] and its [format] *)

Definition dquote : string := String (ascii_of_nat 34) EmptyString.

Definition build_overpass_template : string :=
  let q (s : string) := dquote +:+ s +:+ dquote in
  let parts :=
    ["node[" +:+ q "shop" +:+ "]({bbox});";
     "way[" +:+ q "shop" +:+ "]({bbox});";
     "relation[" +:+ q "shop" +:+ "]({bbox});";
     "node[" +:+ q "amenity" +:+ "=" +:+ q "restaurant" +:+ "]({bbox});";
     "way[" +:+ q "amenity" +:+ "=" +:+ q "restaurant" +:+ "]({bbox});";
     "node[" +:+ q "amenity" +:+ "=" +:+ q "cafe" +:+ "]({bbox});";
     "node[" +:+ q "amenity" +:+ "=" +:+ q "fast_food" +:+ "]({bbox});"] in
  String.concat (String (ascii_of_nat 10) EmptyString) parts.

(** [template.format(bbox=bbox_str)]: every [{bbox}] is replaced; [skip]
    counts the characters of a placeholder still to be dropped. *)
Fixpoint format_bbox (template : string) (skip : nat) (bbox_str : string)
    : string :=
  match template with
  | EmptyString => EmptyString
  | String c rest =>
      match skip with
      | S k => format_bbox rest k bbox_str
      | O =>
          if String.prefix "{bbox}" template
          then bbox_str +:+ format_bbox rest 5 bbox_str
          else String c (format_bbox rest 0 bbox_str)
      end
  end.

(** ** The outside world *)

(** An HTTP call as the program issues it. *)
Record request := {
  req_method : string;
  req_url : string;
  req_params : list (string * json);
  req_data : list (string * string);
  req_headers : list (string * string);
  req_timeout : Z
}.

(** What sending a request, [raise_for_status()] and [json()] come to: the
    decoded body, an HTTP error status ([requests.exceptions.HTTPError]), or
    another [requests.exceptions.RequestException] (network, timeout, or a
    body that does not decode, which [requests] raises as its
    [JSONDecodeError]). *)
Inductive response :=
  | RespJson (j : json)
  | RespHTTPError (status : option Z)
  | RespRequestError (name : string).

Definition is_error (resp : response) : bool :=
  match resp with
  | RespJson _ => false
  | _ => true
  end.

Section Pipeline.

Context {F : Type} `{PyFloat F}.

(** The entry of [failed_tiles]; [ft_error] stands for [str(ex)]. *)
Record failed_tile := {
  ft_idx : nat;
  ft_bbox : F * F * F * F;
  ft_error : exn
}.

(** The [print] calls of the program, one constructor per call site. *)
Inductive printed :=
  | PMirrorHTTP (mirror : string) (status : option Z) (attempt max_retries : Z)
  | PMirrorRequestError (mirror name : string) (attempt max_retries : Z)
  | PMirrorExhausted (mirror : string)
  | PSkip (city_name out_path : string)
  | PStart (city_name : string)
  | PBbox (bbox : F * F * F * F) (display : json)
  | PNominatimFailed (ex : exn)
  | PTile (number total : nat) (tb : F * F * F * F)
  | PElems (n : nat)
  | PTileFailed (ex : exn)
  | PTotal (unique failed : nat)
  | PNoRecords (city_name : string)
  | PSaved (rows : nat) (out_path : string).

(** What a run does to the outside, in order. *)
Inductive event :=
  | EvRequest (req : request) (resp : response)
  | EvPrint (p : printed)
  | EvSleep (seconds : Z)
  | EvWriteJson (path : string) (elements : list json)
      (failed_tiles : list failed_tile)
  | EvWriteCsv (path : string) (records : list (list (string * json))).

(** The world answers requests and knows which files exist. *)
Context {World : Type}.
Variable send : request -> World -> response * World.
Variable path_exists : string -> World -> bool.

(** A computation: from a world to an outcome, the events of the run and
    the world after it. *)
Definition M (A : Type) : Type := World -> res A * list event * World.

Definition ret {A} (a : A) : M A := fun w => (Val a, [], w).

Definition raise {A} (e : exn) : M A := fun w => (Exc e, [], w).

Definition lift {A} (r : res A) : M A := fun w => (r, [], w).

Definition bind {A B} (m : M A) (f : A -> M B) : M B := fun w =>
  match m w with
  | (Val a, tr, w') => let '(r, tr', w'') := f a w' in (r, tr ++ tr', w'')
  | (Exc e, tr, w') => (Exc e, tr, w')
  end.

(** [try: m  except Exception as ex: h ex] *)
Definition try_except {A} (m : M A) (h : exn -> M A) : M A := fun w =>
  match m w with
  | (Exc e, tr, w') => let '(r, tr', w'') := h e w' in (r, tr ++ tr', w'')
  | ok => ok
  end.

Definition emit (ev : event) : M unit := fun w => (Val tt, [ev], w).

Definition print (p : printed) : M unit := emit (EvPrint p).

Definition sleep (seconds : Z) : M unit := emit (EvSleep seconds).

Definition exists_ (path : string) : M bool := fun w =>
  (Val (path_exists path w), [], w).

(** [requests.get]/[requests.post], [raise_for_status()] and [json()]. *)
Definition http_json (req : request) : M json := fun w =>
  let '(resp, w') := send req w in
  (match resp with
   | RespJson j => Val j
   | RespHTTPError status => Exc (HTTPError status)
   | RespRequestError name => Exc (RequestException name)
   end, [EvRequest req resp], w').

#[local] Notation "x <- m ;; k" := (bind m (fun x => k))
  (at level 20, m at level 99, k at level 200, only parsing).

(** *** Region Resolver: [nominatim_bbox] *)

(** [float(v)] *)
Definition py_float (v : json) : res F :=
  match v with
  | JStr s => match of_str s with Some x => Val x | None => Exc ValueError end
  | JInt z => Val (of_int z)
  | JBool b => Val (of_int (if b then 1 else 0))
  | _ => Exc TypeError
  end.

Definition nominatim_request (city_name : string) (email : option string)
    (timeout : Z) : request :=
  let params := [("q", JStr city_name); ("format", JStr "json");
                 ("limit", JInt 1)] in
  let params := match email with
                | Some e => if truthy (JStr e)
                            then params ++ [("email", JStr e)] else params
                | None => params
                end in
  {| req_method := "GET"; req_url := NOMINATIM_URL; req_params := params;
     req_data := []; req_headers := [("User-Agent", USER_AGENT)];
     req_timeout := timeout |}.

(** Returns [None] or the tuple [(south, west, north, east, display_name)]. *)
Definition nominatim_bbox (city_name : string) (email : option string)
    (timeout : Z) : M (option (F * F * F * F * json)) :=
  j <- http_json (nominatim_request city_name email timeout);;
  if negb (truthy j) then ret None
  else
    bb <- lift (j0 ← index_int j 0; index_str j0 "boundingbox");;
    south <- lift (b ← index_int bb 0; py_float b);;
    north <- lift (b ← index_int bb 1; py_float b);;
    west <- lift (b ← index_int bb 2; py_float b);;
    east <- lift (b ← index_int bb 3; py_float b);;
    display_name <- lift (j0 ← index_int j 0;
                          dict_get j0 "display_name" (JStr ""));;
    ret (Some (south, west, north, east, display_name)).

(** *** Resilient Query Client: [query_overpass_with_mirrors] *)

Definition overpass_request (mirror query_body : string) (timeout : Z)
    : request :=
  let full_q := "[out:json][timeout:" +:+ pretty timeout +:+ "];("
                +:+ query_body +:+ ");out center tags;" in
  {| req_method := "POST"; req_url := mirror; req_params := [];
     req_data := [("data", full_q)];
     req_headers := [("User-Agent", USER_AGENT)];
     req_timeout := timeout |}.

(** The inner loop, [for attempt in range(1, max_retries+1)], over the
    attempts still to make.  [inl j] is the [return r.json()] that leaves
    the function; [inr last_exc] is the loop running to its end. *)
Fixpoint attempt_loop (mirror query_body : string) (timeout max_retries : Z)
    (attempts : list Z) (last_exc : option exn) : M (json + option exn) :=
  match attempts with
  | [] => ret (inr last_exc)
  | attempt :: rest =>
      r <- try_except
             (j <- http_json (overpass_request mirror query_body timeout);;
              ret (inl j))
             (fun ex =>
                match ex with
                | HTTPError status =>
                    _ <- print (PMirrorHTTP mirror status attempt max_retries);;
                    ret (inr (Some ex))
                | RequestException name =>
                    _ <- print (PMirrorRequestError mirror name attempt max_retries);;
                    ret (inr (Some ex))
                | _ => raise ex
                end);;
      match r with
      | inl j => ret (inl j)
      | inr last_exc =>
          let sleep_for := BACKOFF_BASE ^ attempt in
          _ <- sleep sleep_for;;
          attempt_loop mirror query_body timeout max_retries rest last_exc
      end
  end.

(** The outer loop, [for mirror in OVERPASS_MIRRORS]. *)
Fixpoint mirror_loop (mirrors : list string) (query_body : string)
    (timeout max_retries : Z) (last_exc : option exn)
    : M (json + option exn) :=
  match mirrors with
  | [] => ret (inr last_exc)
  | mirror :: rest =>
      r <- attempt_loop mirror query_body timeout max_retries
             (seqZ 1 max_retries) last_exc;;
      match r with
      | inl j => ret (inl j)
      | inr last_exc =>
          _ <- print (PMirrorExhausted mirror);;
          mirror_loop rest query_body timeout max_retries last_exc
      end
  end.

Definition query_overpass_with_mirrors (query_body : string)
    (timeout max_retries : Z) : M json :=
  r <- mirror_loop OVERPASS_MIRRORS query_body timeout max_retries None;;
  match r with
  | inl j => ret j
  | inr last_exc => raise (RuntimeError "All Overpass mirrors failed" last_exc)
  end.

(** *** Pipeline Orchestrator: [process_city] *)

(** [len(x)] *)
Definition py_len (x : json) : res nat :=
  match x with
  | JArr l => Val (length l)
  | JStr s => Val (String.length s)
  | JObj m => Val (size m)
  | _ => Exc TypeError
  end.

(** [list(x)], as [all_elements.extend(x)] iterates [x]: the items of a
    list, the characters of a string, the keys of a dict (in the order of
    the map; the program never depends on it). *)
Definition py_iter (x : json) : res (list json) :=
  match x with
  | JArr l => Val l
  | JStr s => Val ((fun c => JStr (String c EmptyString))
                     <$> String.list_ascii_of_string s)
  | JObj m => Val (JStr <$> (map_to_list m).*1)
  | _ => Exc TypeError
  end.

Definition bbox_str (tb : F * F * F * F) : string :=
  let '(s, w, n, e) := tb in
  repr s +:+ "," +:+ repr w +:+ "," +:+ repr n +:+ "," +:+ repr e.

(** The loop [for idx, tb in enumerate(tiles)] with its two accumulators. *)
Fixpoint tile_loop (template : string) (total : nat)
    (tiles : list (nat * (F * F * F * F)))
    (all_elements : list json) (failed_tiles : list failed_tile)
    : M (list json * list failed_tile) :=
  match tiles with
  | [] => ret (all_elements, failed_tiles)
  | (idx, tb) :: rest =>
      let query_body := format_bbox template 0 (bbox_str tb) in
      _ <- print (PTile (idx + 1) total tb);;
      acc <- try_except
               (data <- query_overpass_with_mirrors query_body
                          TIMEOUT_PER_REQUEST MAX_RETRIES;;
                elems <- lift (dict_get data "elements" (JArr []));;
                n <- lift (py_len elems);;
                _ <- print (PElems n);;
                more <- lift (py_iter elems);;
                ret (all_elements ++ more, failed_tiles))
               (fun ex =>
                  _ <- print (PTileFailed ex);;
                  ret (all_elements,
                       failed_tiles
                       ++ [{| ft_idx := idx; ft_bbox := tb; ft_error := ex |}]));;
      _ <- sleep SLEEP_BETWEEN_TILES;;
      tile_loop template total rest acc.1 acc.2
  end.

(** [[extract_shop_record(el, city_name) for el in all_elements]] *)
Fixpoint extract_all (all_elements : list json) (city_name : string)
    : res (list (list (string * json))) :=
  match all_elements with
  | [] => Val []
  | el :: rest =>
      r ← extract_shop_record el city_name;
      rs ← extract_all rest city_name;
      Val (r :: rs)
  end.

(** The [try] block around the resolver: unpacking [None] raises. *)
Definition resolve (city_name : string) : M (option (F * F * F * F)) :=
  try_except
    (t <- nominatim_bbox city_name None 10;;
     match t with
     | None => raise TypeError
     | Some (s, w, n, e, display) =>
         let bbox := (s, w, n, e) in
         _ <- print (PBbox bbox display);;
         ret (Some bbox)
     end)
    (fun ex => _ <- print (PNominatimFailed ex);; ret None).

Definition process_city (city_name : string) : M unit :=
  let safe_name := sanitize_filename city_name in
  let out_path := path_join OUT_DIR (safe_name +:+ ".csv") in
  skip <- exists_ out_path;;
  if skip && negb FORCE_REWRITE then print (PSkip city_name out_path)
  else
    _ <- print (PStart city_name);;
    resolved <- resolve city_name;;
    match resolved with
    | None => ret tt
    | Some bbox =>
        tiles <- lift (split_bbox bbox TILE_NX TILE_NY);;
        let template := build_overpass_template in
        fetched <- tile_loop template (length tiles)
                     (imap (fun idx tb => (idx, tb)) tiles) [] [];;
        let '(all_elements, failed_tiles) := fetched in
        all_elements <- lift (dedupe_elements all_elements);;
        _ <- print (PTotal (length all_elements) (length failed_tiles));;
        records <- lift (extract_all all_elements city_name);;
        if bool_decide (records = []) then
          _ <- print (PNoRecords city_name);;
          let debug_path := path_join OUT_DIR (safe_name +:+ "_raw.json") in
          emit (EvWriteJson debug_path all_elements failed_tiles)
        else
          _ <- emit (EvWriteCsv out_path records);;
          print (PSaved (length records) out_path)
    end.

(** The two files a region can end in. *)
Definition out_path (city_name : string) : string :=
  path_join OUT_DIR (sanitize_filename city_name +:+ ".csv").

Definition debug_path (city_name : string) : string :=
  path_join OUT_DIR (sanitize_filename city_name +:+ "_raw.json").

(** *** Reading a trace *)

(** The events of the fetching phases: requests, pauses and progress
    lines, but neither a written file nor the line with the totals. *)
Definition fetch_event (ev : event) : bool :=
  match ev with
  | EvRequest _ _ | EvSleep _ => true
  | EvPrint (PTotal _ _) => false
  | EvPrint _ => true
  | EvWriteJson _ _ _ | EvWriteCsv _ _ => false
  end.

(** The requests of a run with their answers, in order. *)
Definition requests_of (tr : list event) : list (request * response) :=
  omap (fun ev => match ev with
                  | EvRequest req resp => Some (req, resp)
                  | _ => None
                  end) tr.

(** The errors the requests of a run met, in order. *)
Definition errors_of (tr : list event) : list exn :=
  omap (fun ev => match ev with
                  | EvRequest _ (RespHTTPError status) => Some (HTTPError status)
                  | EvRequest _ (RespRequestError name) =>
                      Some (RequestException name)
                  | _ => None
                  end) tr.

(** The (mirror, attempt) of every failure the client reported. *)
Definition failures_of (tr : list event) : list (string * Z) :=
  omap (fun ev => match ev with
                  | EvPrint (PMirrorHTTP mirror _ attempt _)
                  | EvPrint (PMirrorRequestError mirror _ attempt _) =>
                      Some (mirror, attempt)
                  | _ => None
                  end) tr.

(** The files a run wrote. *)
Definition csv_writes (tr : list event)
    : list (string * list (list (string * json))) :=
  omap (fun ev => match ev with
                  | EvWriteCsv path records => Some (path, records)
                  | _ => None
                  end) tr.

Definition json_writes (tr : list event)
    : list (string * list json * list failed_tile) :=
  omap (fun ev => match ev with
                  | EvWriteJson path elements failed => Some (path, elements, failed)
                  | _ => None
                  end) tr.

(** Every answer of the trace is an answer of the world. *)
Definition sent (tr : list event) : Prop :=
  Forall (fun rr => exists w0, (send rr.1 w0).1 = rr.2) (requests_of tr).

(** [last_exc] after the errors [errs] have been met. *)
Definition last_exc_after (last_exc : option exn) (errs : list exn)
    : option exn :=
  match last errs with
  | Some e => Some e
  | None => last_exc
  end.

(** A stretch of the run in which every scheduled attempt failed. *)
Definition all_failed (query_body : string) (timeout : Z)
    (sched : list (string * Z)) (tr : list event) : Prop :=
  (requests_of tr).*1
  = (fun ma => overpass_request ma.1 query_body timeout) <$> sched
  /\ failures_of tr = sched
  /\ length (errors_of tr) = length sched
  /\ sent tr.

(** What a loop of the client has done when it comes back: it returned the
    answer to attempt number [k] of the schedule, all earlier attempts having
    failed, or it ran through the whole schedule in vain. *)
Definition client_run (query_body : string) (timeout : Z)
    (sched : list (string * Z)) (last_exc : option exn)
    (out : res (json + option exn) * list event * World) : Prop :=
  match out with
  | (Val (inl j), tr, _) =>
      exists k tr0 mirror attempt,
        sched !! k = Some (mirror, attempt)
        /\ tr = tr0 ++ [EvRequest (overpass_request mirror query_body timeout)
                          (RespJson j)]
        /\ all_failed query_body timeout (take k sched) tr0
        /\ sent tr
  | (Val (inr last_exc'), tr, _) =>
      all_failed query_body timeout sched tr
      /\ last_exc' = last_exc_after last_exc (errors_of tr)
  | (Exc _, _, _) => False
  end.

End Pipeline.

(** The order in which the client is to try (mirror, attempt). *)
Definition schedule (mirrors : list string) (max_retries : Z)
    : list (string * Z) :=
  mirror ← mirrors; attempt ← seqZ 1 max_retries; [(mirror, attempt)].

(** ** Auxiliary notions of the proofs *)


Section GridOfTiles.

Context {F : Type} `{PyFloat F}.

(** The grid the two nested loops build: one row per [i], one tile per [j]. *)
Definition grid (south west lat_step lon_step : F) (nx ny : Z)
    : list (list (F * F * F * F)) :=
  (fun i => tile south west lat_step lon_step i <$> seqZ 0 nx) <$> seqZ 0 ny.

End GridOfTiles.

(** The edge [lo + i * step] of the grid. *)
Definition edge (lo step : Q) (i : Z) : Q := (lo + inject_Z i * step)%Q.

Section Phases.

Context {F : Type} {World : Type}.

#[local] Notation "'event'" := (@event F).
#[local] Notation "'M'" := (@M F World).

(** A computation whose runs stay within the fetching events. *)
Definition quiet_run {A} (m : M A) : Prop :=
  forall w, Forall fetch_event (m w).1.2.



End Phases.

(** ** Sample inputs and worlds *)

(** The same shop seen from two overlapping tiles, with drifting tags, and
    a second shop between the two sightings. *)
Definition shop_first : json :=
  JObj (<["type" := JStr "node"]> (<["id" := JInt 555]>
         (<["tags" := JObj (<["name" := JStr "Bakery"]> ∅)]> ∅))).

Definition shop_again : json :=
  JObj (<["type" := JStr "node"]> (<["id" := JInt 555]>
         (<["tags" := JObj (<["name" := JStr "Bakery"]>
                             (<["phone" := JStr "123"]> ∅))]> ∅))).

Definition shop_other : json :=
  JObj (<["type" := JStr "way"]> (<["id" := JInt 555]> ∅)).

(** The example of the specification: tags {phone: A, contact:phone: B}. *)
Definition tags_AB : gmap string string :=
  <["phone" := "A"]> (<["contact:phone" := "B"]> ∅).

Definition el_AB : gmap string json :=
  <["type" := JStr "node"]> (<["id" := JInt 555]>
    (<["tags" := JObj (JStr <$> tags_AB)]> ∅)).

(** The box of the end-to-end scenario: Qom, (34.5, 50.7, 34.7, 50.9). *)
Definition qom_bbox : Q * Q * Q * Q :=
  ((345 # 10)%Q, (507 # 10)%Q, (347 # 10)%Q, (509 # 10)%Q).

(** A world that counts the requests it has answered; the first mirror is
    down, every other mirror answers with no element. *)
Definition no_elements : json := JObj (<["elements" := JArr []]> ∅).

Definition first_mirror_down (req : request) (w : nat) : response * nat :=
  if String.eqb (req_url req) "https://overpass-api.de/api/interpreter"
  then (RespHTTPError (Some 503), S w)
  else (RespJson no_elements, S w).

(** A world in which every mirror times out. *)
Definition all_mirrors_down (req : request) (w : nat) : response * nat :=
  (RespRequestError "ReadTimeout", S w).

(** The geocoder's answer of the end-to-end scenario. *)
Definition qom_match : json :=
  JArr [JObj (<["boundingbox" :=
                  JArr [JStr "34.5"; JStr "34.7"; JStr "50.7"; JStr "50.9"]]>
              (<["display_name" := JStr "Qom, Iran"]> ∅))].

(** Qom is found and no tile holds an element. *)
Definition qom_empty_world (req : request) (w : nat) : response * nat :=
  if String.eqb (req_method req) "GET" then (RespJson qom_match, S w)
  else (RespJson no_elements, S w).

(** The geocoder knows no such place. *)
Definition nowhere_world (req : request) (w : nat) : response * nat :=
  (RespJson (JArr []), S w).

Definition no_file (path : string) (w : nat) : bool := false.


(** ** Notions of the further properties *)

(** A list of characters with no whitespace at either end. *)
Definition trimmed (l : list ascii) : Prop :=
  (forall c, head l = Some c -> is_space c = false)
  /\ (forall c, last l = Some c -> is_space c = false).

(** The elements [l] have the identities [ks], one each. *)
Definition identities (l : list json) (ks : list (hkey * hkey)) : Prop :=
  Forall2 (fun el k => element_key el = Val k) l ks.

(** The first truthy value among the tags [keys] of a tag dictionary with
    values of any type, or the empty string. *)
Fixpoint first_truthy (keys : list string) (t : gmap string json) : json :=
  match keys with
  | [] => JStr ""
  | k :: rest =>
      let v := default JNull (t !! k) in
      if truthy v then v else first_truthy rest t
  end.

(** The truthy values among the tags [keys], in the order of [keys]. *)
Definition truthy_values (keys : list string) (t : gmap string json)
    : list json :=
  omap (fun k => let v := default JNull (t !! k) in
                 if truthy v then Some v else None) keys.

(** The record of an element whose tags are [t], with [address] for its
    address. *)
Definition record_of (city_name : string) (m t : gmap string json)
    (address : json) : list (string * json) :=
  [("city", JStr city_name);
   ("osm_type", default JNull (m !! "type"));
   ("osm_id", default JNull (m !! "id"));
   ("name", default (JStr "") (t !! "name"));
   ("address", address);
   ("phone", first_truthy ["contact:phone"; "phone"; "telephone"] t);
   ("email", first_truthy ["contact:email"; "email"] t);
   ("website", first_truthy ["website"; "contact:website"] t)].

Section MoreReaders.

Context {F : Type}.

#[local] Notation "'event'" := (@event F).

(** The pauses of a run, in seconds, in order. *)
Definition sleeps_of (tr : list event) : list Z :=
  omap (fun ev => match ev with
                  | EvSleep seconds => Some seconds
                  | _ => None
                  end) tr.

(** The mirrors the client gave up on, in order. *)
Definition exhausted_of (tr : list event) : list string :=
  omap (fun ev => match ev with
                  | EvPrint (PMirrorExhausted mirror) => Some mirror
                  | _ => None
                  end) tr.

(** Every reported failure is followed by its pause, and there is no other
    pause. *)
Definition paced (tr : list event) : Prop :=
  sleeps_of tr = (fun ma => BACKOFF_BASE ^ ma.2) <$> failures_of tr.

(** The tiles a run started on: number, total and box of each progress
    line. *)
Definition tiles_of (tr : list event) : list (nat * nat * (F * F * F * F)) :=
  omap (fun ev => match ev with
                  | EvPrint (PTile number total tb) => Some (number, total, tb)
                  | _ => None
                  end) tr.

(** The element counts a run reported, one per tile that came back. *)
Definition elems_of (tr : list event) : list nat :=
  omap (fun ev => match ev with
                  | EvPrint (PElems n) => Some n
                  | _ => None
                  end) tr.

(** What the body of the [try] block adds to [all_elements] for the answer
    [data] of a tile: [None] when one of its steps raises. *)
Definition tile_elements (data : json) : option (list json) :=
  match (elems ← dict_get data "elements" (JArr []);
         _ ← py_len elems;
         py_iter elems) with
  | Val more => Some more
  | Exc _ => None
  end.

(** The answers the tile queries of a run got, in order. *)
Definition answers_of (tr : list event) : list json :=
  omap (fun ev => match ev with
                  | EvRequest req (RespJson data) =>
                      if String.eqb (req_method req) "POST"
                      then Some data else None
                  | _ => None
                  end) tr.

(** The elements of all answered tile queries of a run, in order. *)
Definition fetched (tr : list event) : list json :=
  mjoin ((fun data => default [] (tile_elements data)) <$> answers_of tr).

(** The events of the query client. *)
Definition client_event (ev : event) : bool :=
  match ev with
  | EvRequest _ _ | EvSleep _ => true
  | EvPrint (PMirrorHTTP _ _ _ _) | EvPrint (PMirrorRequestError _ _ _ _)
  | EvPrint (PMirrorExhausted _) => true
  | _ => false
  end.

End MoreReaders.

Section Tabled.

Context {F : Type} {World : Type}.

#[local] Notation "'event'" := (@event F).

(** What a run of [process_city] may have written and raised, in terms of
    the elements it fetched. *)
Definition tabled (city_name : string)
    (out : res unit * list event * World) : Prop :=
  let '(r, tr, _) := out in
  (forall path records, (path, records) ∈ csv_writes tr ->
     r = Val tt
     /\ csv_writes tr = [(out_path city_name, records)]
     /\ path = out_path city_name
     /\ records <> []
     /\ exists elements,
         dedupe_elements (fetched tr) = Val elements
         /\ extract_all elements city_name = Val records)
  /\ (forall e, r = Exc e ->
       (e = AttributeError \/ e = TypeError)
       /\ (dedupe_elements (fetched tr) = Exc e
           \/ exists elements,
               dedupe_elements (fetched tr) = Val elements
               /\ extract_all elements city_name = Exc e)).

End Tabled.

(** The geocoder answers with an entry that has no bounding box. *)
Definition no_bbox_world (req : request) (w : nat) : response * nat :=
  (RespJson (JArr [JObj (<["display_name" := JStr "Qom, Iran"]> ∅)]), S w).

(** The geocoder is unreachable. *)
Definition geocoder_down (req : request) (w : nat) : response * nat :=
  (RespRequestError "ConnectionError", S w).

Definition every_file (path : string) (w : nat) : bool := true.

(** Qom is found and every tile holds the same shop, seen twice. *)
Definition one_shop_world (req : request) (w : nat) : response * nat :=
  if String.eqb (req_method req) "GET" then (RespJson qom_match, S w)
  else (RespJson (JObj (<["elements" := JArr [shop_first; shop_again]]> ∅)),
        S w).

(** Qom is found and every tile holds an item that is no dictionary. *)
Definition odd_item_world (req : request) (w : nat) : response * nat :=
  if String.eqb (req_method req) "GET" then (RespJson qom_match, S w)
  else (RespJson (JObj (<["elements" := JArr [JStr "node"]]> ∅)), S w).

(** ** [load_cities] *)

Definition CITIES_FILE : string := "iran_cities.txt".

(** The name the function falls back on, [DEFAULT_CITIES], is bound nowhere
    in the module (its list of names is called [DEFAULT_PROVINCES]):
    evaluating it raises NameError. *)
Inductive name_error :=
  | NameError (name : string).

Section LoadCities.

Context {World : Type}.
Variable path_exists : string -> World -> bool.
(** The lines that iterating over the open file yields, line ends
    included; a file that exists is taken to be readable. *)
Variable read_lines : string -> World -> list string.

Definition load_cities (file_path : string) (w : World)
    : name_error + list string :=
  let fallback := inl (NameError "DEFAULT_CITIES") in
  if path_exists file_path w then
    let cities :=
      strip <$> filter (fun line => strip line <> "")
                  (read_lines file_path w) in
    if bool_decide (cities = []) then fallback else inr cities
  else fallback.

End LoadCities.

(** A cities file with a blank line and padded names. *)
Definition cities_file (path : string) (w : unit) : list string :=
  ["  Tehran " +:+ String (ascii_of_nat 10) EmptyString;
   String (ascii_of_nat 10) EmptyString;
   "Qom" +:+ String (ascii_of_nat 10) EmptyString].

(** A shop whose tags are not all strings: a null name, a number for a
    phone. *)
Definition odd_tags : gmap string json :=
  <["name" := JNull]> (<["phone" := JInt 123]> ∅).


(** ** The requests of a region *)

Section Requests.

Context {F : Type} `{PyFloat F} {World : Type}.

#[local] Notation "'event'" := (@event F).




(** A computation all of whose events satisfy [P]. *)
Definition only_run (P : event -> Prop) {A} (m : @M F World A) : Prop :=
  forall w, Forall P (m w).1.2.

End Requests.
(** * Properties

    ** Element Aggregator *)

Section Aggregator.

Implicit Types (elems pre rest out : list json) (seen : gset (hkey * hkey)).








End Aggregator.



(** The first sighting is kept, with its tags; the later one is dropped. *)
Example dedupe_elements_keeps_first :
  dedupe_elements [shop_first; shop_other; shop_again]
  = Val [shop_first; shop_other].
Proof. vm_compute. reflexivity. Qed.

(** An item that is not a dictionary has no [get]. *)
Example dedupe_elements_not_a_dict :
  dedupe_elements [shop_first; JStr "node"] = Exc AttributeError.
Proof. vm_compute. reflexivity. Qed.
(** ** Record Normalizer *)

Section Normalizer.

Implicit Types (m : gmap string json) (tags : gmap string string).

Import NormalizerSpec.

Lemma dict_get_strings tags k :
  dict_get (JObj (JStr <$> tags)) k JNull
  = Val (match tags !! k with Some v => JStr v | None => JNull end).
Proof. cbn. rewrite lookup_fmap. by destruct (tags !! k). Qed.

Lemma or_else_strings tags k (rest : res json) :
  or_else (dict_get (JObj (JStr <$> tags)) k JNull) rest
  = match non_empty tags k with Some v => Val (JStr v) | None => rest end.
Proof.
  unfold or_else, non_empty. rewrite dict_get_strings.
  destruct (tags !! k) as [v|]; cbn; [|done].
  by destruct (String.eqb v "").
Qed.

Lemma as_strs_strings (l : list string) : as_strs (JStr <$> l) = Val l.
Proof. induction l as [|s l IH]; cbn; [done|]. by rewrite IH. Qed.

Lemma str_join_strings sep (l : list string) :
  str_join sep (JStr <$> l) = Val (String.concat sep l).
Proof. unfold str_join. by rewrite as_strs_strings. Qed.

Lemma present_values_cons tags k keys :
  present_values (k :: keys) tags
  = match non_empty tags k with
    | Some v => v :: present_values keys tags
    | None => present_values keys tags
    end.
Proof. reflexivity. Qed.

Lemma addr_loop_strings tags keys (acc : list string) :
  addr_loop (JObj (JStr <$> tags)) keys (JStr <$> acc)
  = Val (JStr <$> (acc ++ present_values keys tags)).
Proof.
  revert acc. induction keys as [|k keys IH]; intros acc.
  - cbn. by rewrite app_nil_r.
  - cbn [addr_loop]. rewrite dict_get_strings. cbn [mbind res_bind].
    rewrite present_values_cons. unfold non_empty.
    destruct (tags !! k) as [v|]; cbn [truthy].
    + destruct (String.eqb v "") eqn:E; cbn [negb].
      * apply IH.
      * replace (fmap JStr acc ++ [JStr v]) with (JStr <$> (acc ++ [v]))
          by by rewrite fmap_app.
        rewrite IH. by rewrite <- app_assoc.
    + apply IH.
Qed.

(** What [el.get("tags", {}) or {}] evaluates to. *)
Lemma tags_or_empty m tags :
  has_tags m tags ->
  (if truthy (default (JObj ∅) (m !! "tags"))
   then default (JObj ∅) (m !! "tags") else JObj ∅) = JObj (JStr <$> tags).
Proof.
  intros [H|H|t H]; rewrite H; cbn; try by rewrite fmap_empty.
  rewrite map_size_fmap.
  destruct (Nat.eqb (size t) 0) eqn:E; cbn; [|done].
  apply Nat.eqb_eq, map_size_empty_iff in E. by rewrite E, fmap_empty.
Qed.

(** The code computes the record the rules describe. *)
Lemma extract_shop_record_rules m tags city_name :
  has_tags m tags ->
  extract_shop_record (JObj m) city_name
  = Val (record city_name (default JNull (m !! "type"))
           (default JNull (m !! "id")) tags).
Proof.
  intros Ht. unfold extract_shop_record.
  cbn [dict_get mbind res_bind]. cbv zeta.
  rewrite (tags_or_empty m tags Ht).
  rewrite !or_else_strings.
  rewrite (addr_loop_strings tags addr_keys []
           : addr_loop _ _ [] = Val (JStr <$> present_values addr_keys tags)).
  cbn [dict_get mbind res_bind]. rewrite lookup_fmap.
  unfold record, address, first_non_empty.
  rewrite length_fmap, str_join_strings.
  assert (Hname : default (JStr "") (JStr <$> tags !! "name")
                  = JStr (default "" (tags !! "name")))
    by by destruct (tags !! "name").
  rewrite Hname. clear Hname.
  destruct (present_values addr_keys tags) as [|p ps];
    cbn [length Nat.eqb negb];
    by repeat (destruct (non_empty tags _); cbn [mbind res_bind]).
Qed.

(** C5: for every RawElement (an element dictionary with its tag mapping)
    and every region name, the normalizer returns the record the priority
    rules describe: phone from contact:phone, then phone, then telephone;
    email from contact:email, then email; website from website, then
    contact:website; address the ", "-join of the non-empty values among
    addr:street, addr:housenumber, addr:city, addr:postcode, addr:state in
    that order, else addr:full, else the empty string; name from the name
    tag; an absent chain gives the empty string.  In particular a non-empty
    contact:phone wins over phone, and an element with no address tag has
    the empty address. *)
Theorem extract_shop_record_priority m tags city_name :
  has_tags m tags ->
  exists r,
    extract_shop_record (JObj m) city_name = Val r
    /\ r = record city_name (default JNull (m !! "type"))
             (default JNull (m !! "id")) tags
    /\ (forall b, tags !! "contact:phone" = Some b -> b <> "" ->
         field r "phone" = Some (JStr b))
    /\ (Forall (fun k => tags !! k = None) ("addr:full" :: addr_keys) ->
         field r "address" = Some (JStr "")).
Proof.
  intros Ht. eexists. split; [by apply extract_shop_record_rules|].
  split; [done|]. split.
  - intros b Hb Hne. cbn. unfold non_empty. rewrite Hb.
    destruct (String.eqb_spec b ""); [done|reflexivity].
  - intros Hnone. cbn. unfold address, present_values, addr_keys.
    cbn [omap list_omap first_non_empty]. unfold non_empty.
    repeat (apply Forall_cons in Hnone as [-> Hnone]). reflexivity.
Qed.

Lemma extract_shop_record_priority_witness :
  exists r,
    extract_shop_record (JObj el_AB) "Qom" = Val r
    /\ field r "phone" = Some (JStr "B")
    /\ field r "address" = Some (JStr "").
Proof.
  destruct (extract_shop_record_priority el_AB tags_AB "Qom")
    as (r & Hr & _ & Hphone & Haddr).
  - apply tags_dict. reflexivity.
  - exists r. split; [exact Hr|]. split.
    + apply Hphone; [reflexivity|discriminate].
    + apply Haddr. repeat constructor.
Defined.



(** Outside that type the totality is lost: a tag that is not a string
    makes the join raise. *)
Example extract_shop_record_non_string_tag :
  extract_shop_record
    (JObj (<["tags" := JObj (<["addr:street" := JInt 5]> ∅)]> ∅)) "Qom"
  = Exc TypeError.
Proof. reflexivity. Qed.

End Normalizer.

(** ** Tile Partitioner *)

Section PartitionerGrid.

Context {F : Type} `{PyFloat F}.

Lemma foldl_snoc {A B} (f : B -> A) (l : list B) (acc : list A) :
  foldl (fun boxes j => boxes ++ [f j]) acc l = acc ++ (f <$> l).
Proof.
  revert acc. induction l as [|x l IH]; intros acc; cbn.
  - by rewrite app_nil_r.
  - rewrite IH. by rewrite <- app_assoc.
Qed.

Lemma foldl_rows {A B C} (f : B -> C -> A) (rows : list B) (cols : list C)
    (acc : list A) :
  foldl (fun boxes i => foldl (fun boxes j => boxes ++ [f i j]) boxes cols)
    acc rows
  = acc ++ mjoin ((fun i => f i <$> cols) <$> rows).
Proof.
  revert acc. induction rows as [|x rows IH]; intros acc; cbn.
  - by rewrite app_nil_r.
  - rewrite foldl_snoc, IH. by rewrite <- app_assoc.
Qed.

Lemma split_bbox_rows south west north east nx ny :
  nx <> 0 -> ny <> 0 ->
  split_bbox (south, west, north, east) nx ny
  = Val (mjoin (grid south west (fdiv (fsub north south) (of_int ny))
                  (fdiv (fsub east west) (of_int nx)) nx ny)).
Proof.
  intros Hx Hy. unfold split_bbox, truediv.
  destruct (Z.eqb_spec ny 0); [done|]. destruct (Z.eqb_spec nx 0); [done|].
  cbn [mbind res_bind]. f_equal. by rewrite foldl_rows.
Qed.

Lemma grid_row_length south west lat_step lon_step nx ny :
  Forall (fun row => length row = Z.to_nat nx)
    (grid south west lat_step lon_step nx ny).
Proof.
  unfold grid. apply Forall_fmap, Forall_forall. intros i _. cbn.
  by rewrite length_fmap, length_seqZ.
Qed.

Lemma grid_length south west lat_step lon_step nx ny :
  length (mjoin (grid south west lat_step lon_step nx ny))
  = (Z.to_nat ny * Z.to_nat nx)%nat.
Proof.
  rewrite length_join.
  rewrite (sum_list_fmap_same (Z.to_nat nx)) by apply grid_row_length.
  unfold grid. by rewrite length_fmap, length_seqZ.
Qed.

Lemma grid_lookup south west lat_step lon_step nx ny a t :
  mjoin (grid south west lat_step lon_step nx ny) !! a = Some t <->
  exists i j, 0 <= i < ny /\ 0 <= j < nx
    /\ a = Z.to_nat (i * nx + j)
    /\ t = tile south west lat_step lon_step i j.
Proof.
  rewrite (join_lookup_Some_same_length (Z.to_nat nx))
    by apply grid_row_length.
  unfold grid. split.
  - intros (r & row & c & Hrow & Hc & ->).
    rewrite list_lookup_fmap in Hrow.
    destruct (seqZ 0 ny !! r) as [i|] eqn:Hi; [|done].
    injection Hrow as <-. rewrite list_lookup_fmap in Hc.
    destruct (seqZ 0 nx !! c) as [j|] eqn:Hj; [|done].
    injection Hc as <-.
    apply lookup_seqZ in Hi as [-> Hi], Hj as [-> Hj].
    rewrite !Z.add_0_l.
    exists (Z.of_nat r), (Z.of_nat c). repeat split; lia.
  - intros (i & j & Hi & Hj & -> & ->).
    exists (Z.to_nat i), (tile south west lat_step lon_step i <$> seqZ 0 nx),
      (Z.to_nat j).
    split; [|split].
    + rewrite list_lookup_fmap, lookup_seqZ_lt by lia.
      rewrite Z.add_0_l, Z2Nat.id by lia. done.
    + rewrite list_lookup_fmap, lookup_seqZ_lt by lia.
      rewrite Z.add_0_l, Z2Nat.id by lia. done.
    + assert (0 <= i * nx) by nia.
      rewrite Z2Nat.inj_add, Z2Nat.inj_mul by lia. done.
Qed.

End PartitionerGrid.

(** *** Exact arithmetic: the tiles partition the box *)

Section PartitionerExact.

#[local] Open Scope Q_scope.



Lemma edge_succ lo step i : edge lo step (i + 1) == edge lo step i + step.
Proof. unfold edge. rewrite inject_Z_plus. ring. Qed.


Lemma step_pos lo hi n : lo < hi -> (1 <= n)%Z -> 0 < (hi - lo) / inject_Z n.
Proof.
  intros Hlt Hn. apply Qlt_shift_div_l.
  - change 0 with (inject_Z 0). rewrite <- Zlt_Qlt. lia.
  - lra.
Qed.


Context (south west north east : Q) (nx ny : Z).
Context (Hlat : south < north) (Hlon : west < east).
Context (Hnx : (1 <= nx)%Z) (Hny : (1 <= ny)%Z).

#[local] Notation "'lat_step'" := ((north - south) / inject_Z ny).
#[local] Notation "'lon_step'" := ((east - west) / inject_Z nx).







End PartitionerExact.



(** The four tiles of the scenario, in exact arithmetic. *)
Example split_bbox_qom :
  let lat_step := (((347 # 10) - (345 # 10)) / 2)%Q in
  let lon_step := (((509 # 10) - (507 # 10)) / 2)%Q in
  let t := tile (345 # 10)%Q (507 # 10)%Q lat_step lon_step in
  split_bbox qom_bbox 2 2 = Val [t 0 0; t 0 1; t 1 0; t 1 1].
Proof. reflexivity. Qed.

(** C8, as the code has it: a zero dimension raises ZeroDivisionError (no
    ConfigError exists), a negative dimension beside a non-zero one gives the
    empty tile list without failing, and a zero dimension is the only way
    to fail. *)
Theorem split_bbox_invalid_dimensions {F : Type} `{PyFloat F}
    (bbox : F * F * F * F) (nx ny : Z) :
  (nx = 0 \/ ny = 0 <-> split_bbox bbox nx ny = Exc ZeroDivisionError)
  /\ (nx <> 0 /\ ny <> 0 /\ (nx < 0 \/ ny < 0) ->
      split_bbox bbox nx ny = Val [])
  /\ (forall e, split_bbox bbox nx ny = Exc e -> e = ZeroDivisionError).
Proof.
  destruct bbox as [[[south west] north] east].
  assert (Hzero : nx = 0 \/ ny = 0 ->
                  split_bbox (south, west, north, east) nx ny
                  = Exc ZeroDivisionError).
  { unfold split_bbox, truediv. intros Hz.
    destruct (Z.eqb_spec ny 0); [done|]. cbn [mbind res_bind].
    destruct (Z.eqb_spec nx 0); [done|]. lia. }
  destruct (decide (nx = 0 \/ ny = 0)) as [Hz|Hnz].
  - rewrite (Hzero Hz). split; [done|]. split; [lia|]. by intros e [= <-].
  - rewrite split_bbox_rows by lia. split; [split; done|]. split; [|done].
    intros (_ & _ & Hneg). f_equal.
    apply length_zero_iff_nil. rewrite grid_length. lia.
Qed.

(** C8 as stated fails: a negative dimension is accepted. *)
Lemma split_bbox_negative_dimension :
  split_bbox qom_bbox (-1) 1 = Val []
  /\ ~ (exists e, split_bbox qom_bbox (-1) 1 = Exc e).
Proof. split; [reflexivity|]. intros [e He]. discriminate He. Qed.

(** ** Resilient Query Client *)

Section Client.

Context {F : Type} {World : Type}.
Variable send : request -> World -> response * World.
Variables (query_body : string) (timeout max_retries : Z).

#[local] Notation "'event'" := (@event F).

Lemma last_exc_after_app last_exc errs1 errs2 :
  last_exc_after (last_exc_after last_exc errs1) errs2
  = last_exc_after last_exc (errs1 ++ errs2).
Proof.
  unfold last_exc_after. destruct errs2 as [|e errs2 _] using rev_ind.
  - by rewrite app_nil_r.
  - by rewrite app_assoc, !last_snoc.
Qed.

Lemma requests_of_app (tr1 tr2 : list event) :
  requests_of (tr1 ++ tr2) = requests_of tr1 ++ requests_of tr2.
Proof. apply omap_app. Qed.

Lemma errors_of_app (tr1 tr2 : list event) :
  errors_of (tr1 ++ tr2) = errors_of tr1 ++ errors_of tr2.
Proof. apply omap_app. Qed.

Lemma failures_of_app (tr1 tr2 : list event) :
  failures_of (tr1 ++ tr2) = failures_of tr1 ++ failures_of tr2.
Proof. apply omap_app. Qed.

Lemma sent_app (tr1 tr2 : list event) :
  sent send tr1 -> sent send tr2 -> sent send (tr1 ++ tr2).
Proof. unfold sent. rewrite requests_of_app. apply Forall_app_2. Qed.

Lemma all_failed_nil : all_failed send query_body timeout [] ([] : list event).
Proof. repeat split. constructor. Qed.

Lemma all_failed_app sched1 sched2 (tr1 tr2 : list event) :
  all_failed send query_body timeout sched1 tr1 ->
  all_failed send query_body timeout sched2 tr2 ->
  all_failed send query_body timeout (sched1 ++ sched2) (tr1 ++ tr2).
Proof.
  intros (Hr1 & Hf1 & He1 & Hs1) (Hr2 & Hf2 & He2 & Hs2). repeat split.
  - by rewrite requests_of_app, !fmap_app, Hr1, Hr2.
  - by rewrite failures_of_app, Hf1, Hf2.
  - rewrite errors_of_app, !length_app. lia.
  - by apply sent_app.
Qed.

(** A failed stretch followed by a run of the rest of the schedule. *)
Lemma client_run_app sched1 sched2 last_exc (tr1 : list event) r2 tr2 w2 :
  all_failed send query_body timeout sched1 tr1 ->
  client_run send query_body timeout sched2
    (last_exc_after last_exc (errors_of tr1)) (r2, tr2, w2) ->
  client_run send query_body timeout (sched1 ++ sched2) last_exc
    (r2, tr1 ++ tr2, w2).
Proof.
  intros H1 H2. pose proof H1 as (Hr1 & Hf1 & He1 & Hs1).
  destruct r2 as [[j|last_exc']|e]; cbn in *; [| |done].
  - destruct H2 as (k & tr0 & mirror & attempt & Hk & -> & Hfail & Hsent).
    exists (length sched1 + k)%nat, (tr1 ++ tr0), mirror, attempt.
    split; [by rewrite lookup_app_r, Nat.add_comm, Nat.add_sub by lia|].
    split; [by rewrite app_assoc|]. split; [|by apply sent_app].
    rewrite take_app_ge, Nat.add_comm, Nat.add_sub by lia.
    by apply all_failed_app.
  - destruct H2 as [Hfail ->]. split; [by apply all_failed_app|].
    by rewrite last_exc_after_app, errors_of_app.
Qed.

(** A run that returned an answer is a run of any longer schedule. *)
Lemma client_run_returned sched1 sched2 last_exc1 last_exc2 j
    (tr : list event) w :
  client_run send query_body timeout sched1 last_exc1 (Val (inl j), tr, w) ->
  client_run send query_body timeout (sched1 ++ sched2) last_exc2
    (Val (inl j), tr, w).
Proof.
  intros (k & tr0 & mirror & attempt & Hk & -> & Hfail & Hsent).
  pose proof (lookup_lt_Some _ _ _ Hk) as Hlt.
  exists k, tr0, mirror, attempt.
  split; [by rewrite lookup_app_l|]. split; [done|]. split; [|done].
  by rewrite take_app_le by lia.
Qed.

Lemma attempt_loop_run mirror attempts : forall last_exc w,
  client_run (F:=F) send query_body timeout
    ((fun a => (mirror, a)) <$> attempts) last_exc
    (attempt_loop send mirror query_body timeout max_retries attempts
       last_exc w).
Proof.
  induction attempts as [|attempt rest IH]; intros last_exc w.
  - cbn. split; [apply all_failed_nil|done].
  - cbn [attempt_loop]. unfold bind, try_except, http_json.
    match goal with
    | |- context [send ?r w] => destruct (send r w) as [resp w1] eqn:Hsend
    end.
    destruct resp as [j|status|name]; cbn.
    + exists 0%nat, [], mirror, attempt. repeat split; try done.
      * constructor.
      * repeat constructor. exists w. cbn. by rewrite Hsend.
    + specialize (IH (Some (HTTPError status)) w1).
      destruct (attempt_loop _ _ _ _ _ rest _ w1) as [[r2 tr2] w2].
      apply (client_run_app [(mirror, attempt)] _ last_exc
               [EvRequest _ (RespHTTPError status); EvPrint _; EvSleep _]);
        [|exact IH].
      repeat split. repeat constructor. exists w. cbn. by rewrite Hsend.
    + specialize (IH (Some (RequestException name)) w1).
      destruct (attempt_loop _ _ _ _ _ rest _ w1) as [[r2 tr2] w2].
      apply (client_run_app [(mirror, attempt)] _ last_exc
               [EvRequest _ (RespRequestError name); EvPrint _; EvSleep _]);
        [|exact IH].
      repeat split. repeat constructor. exists w. cbn. by rewrite Hsend.
Qed.

Lemma schedule_cons mirror mirrors :
  schedule (mirror :: mirrors) max_retries
  = ((fun a => (mirror, a)) <$> seqZ 1 max_retries)
    ++ schedule mirrors max_retries.
Proof.
  unfold schedule. cbn [mbind list_bind]. f_equal.
Qed.

Lemma mirror_loop_run mirrors : forall last_exc w,
  client_run (F:=F) send query_body timeout
    (schedule mirrors max_retries) last_exc
    (mirror_loop send mirrors query_body timeout max_retries last_exc w).
Proof.
  induction mirrors as [|mirror rest IH]; intros last_exc w.
  - cbn. split; [apply all_failed_nil|done].
  - rewrite schedule_cons. cbn [mirror_loop]. unfold bind.
    pose proof (attempt_loop_run mirror (seqZ 1 max_retries) last_exc w) as Hin.
    destruct (attempt_loop _ _ _ _ _ _ _ w) as [[r1 tr1] w1].
    destruct r1 as [[j|last_exc1]|e]; [| |done].
    + cbn. rewrite app_nil_r.
      exact (client_run_returned _ _ last_exc last_exc _ _ _ Hin).
    + destruct Hin as [Hfail ->]. cbn.
      specialize (IH (last_exc_after last_exc (errors_of tr1)) w1).
      destruct (mirror_loop _ rest _ _ _ _ w1) as [[r2 tr2] w2].
      apply client_run_app; [done|].
      replace (EvPrint (PMirrorExhausted mirror) :: tr2)
        with ([EvPrint (PMirrorExhausted (F:=F) mirror)] ++ tr2) by done.
      apply (client_run_app [] (schedule rest max_retries)
               (last_exc_after last_exc (errors_of tr1))
               [EvPrint (PMirrorExhausted mirror)]); [|exact IH].
      repeat split. constructor.
Qed.

Lemma last_exc_after_None errs : last_exc_after None errs = last errs.
Proof. unfold last_exc_after. by destruct (last errs). Qed.

(** A mirror that never answers cannot be the one the loop returns from. *)
Lemma returned_not_error (tr0 : list event) mirror j :
  (forall req w0, req_url req = mirror -> is_error (send req w0).1 = true) ->
  sent send (tr0 ++ [EvRequest (overpass_request mirror query_body timeout)
                       (RespJson j)]) ->
  False.
Proof.
  intros Herr Hsent. unfold sent in Hsent. rewrite requests_of_app in Hsent.
  apply Forall_app in Hsent as [_ Hsent]. cbn in Hsent.
  apply Forall_cons in Hsent as [[w0 Hw0] _]. cbn in Hw0.
  specialize (Herr (overpass_request mirror query_body timeout) w0 eq_refl).
  by rewrite Hw0 in Herr.
Qed.

Lemma row_requests mirror (attempts : list Z) :
  (fun ma : string * Z => overpass_request ma.1 query_body timeout)
    <$> ((fun a => (mirror, a)) <$> attempts)
  = replicate (length attempts) (overpass_request mirror query_body timeout).
Proof. induction attempts as [|a l IH]; cbn; [done|]. by rewrite IH. Qed.

(** First mirror down, second mirror up: the loop leaves at the first
    attempt on the second mirror. *)
Lemma mirror_loop_failover m1 m2 others last_exc w :
  (forall req w0, req_url req = m1 -> is_error (send req w0).1 = true) ->
  (forall req w0, req_url req = m2 -> is_error (send req w0).1 = false) ->
  1 <= max_retries ->
  exists j (tr0 : list event) w',
    mirror_loop send (m1 :: m2 :: others) query_body timeout max_retries
      last_exc w
    = (Val (inl j),
       tr0 ++ [EvRequest (overpass_request m2 query_body timeout) (RespJson j)],
       w')
    /\ (requests_of tr0).*1
       = replicate (Z.to_nat max_retries)
           (overpass_request m1 query_body timeout).
Proof.
  intros Herr1 Hok2 Hmr.
  cbn [mirror_loop]. unfold bind at 1.
  pose proof (attempt_loop_run m1 (seqZ 1 max_retries) last_exc w) as H1.
  destruct (attempt_loop _ m1 _ _ _ _ _ w) as [[r1 tr1] w1].
  destruct r1 as [[j1|last_exc1]|e1]; [| |done].
  { destruct H1 as (? & ? & ? & ? & Hk & -> & _ & Hsent).
    apply list_lookup_fmap_Some in Hk as (a & Heq & _).
    injection Heq as -> ->.
    by apply returned_not_error in Hsent. }
  destruct H1 as [(Hr1 & _) _].
  rewrite (seqZ_cons 1 max_retries) by lia.
  cbn [attempt_loop mirror_loop]. unfold bind, try_except, http_json.
  cbv beta iota zeta delta [print emit].
  match goal with
  | |- context [send ?r w1] =>
      destruct (send r w1) as [resp w2] eqn:Hsend;
      pose proof (Hok2 r w1 eq_refl) as Hok; rewrite Hsend in Hok
  end.
  destruct resp as [j2|?|?]; [|done..].
  cbv beta iota zeta delta [ret].
  exists j2, (tr1 ++ [EvPrint (PMirrorExhausted m1)]), w2. split.
  - by rewrite !app_nil_r, <- app_assoc.
  - rewrite requests_of_app, app_nil_r, Hr1, row_requests, length_seqZ. done.
Qed.

(** C1: the client walks the schedule (mirror 1 attempts 1..MAX_RETRIES,
    mirror 2 attempts 1..MAX_RETRIES, ...) in order.  When it returns an
    answer, that answer is the response to attempt number k of the schedule,
    every earlier attempt of the schedule was made and failed, and the
    successful request is the last event of the run; when it raises, the
    whole schedule was tried.  In particular, if the first mirror errors on
    every attempt and the second one answers, the answer of the second
    mirror is returned after exactly max_retries requests to the first. *)
Theorem query_overpass_failover (w : World) :
  let '(r, tr, _) :=
    query_overpass_with_mirrors (F:=F) send query_body timeout max_retries w in
  let sched := schedule OVERPASS_MIRRORS max_retries in
  match r with
  | Val j =>
      exists k tr0 mirror attempt,
        sched !! k = Some (mirror, attempt)
        /\ tr = tr0 ++ [EvRequest (overpass_request mirror query_body timeout)
                          (RespJson j)]
        /\ (requests_of tr0).*1
           = (fun ma => overpass_request ma.1 query_body timeout)
               <$> take k sched
        /\ failures_of tr0 = take k sched
        /\ length (errors_of tr0) = k
        /\ sent send tr
  | Exc e =>
      (requests_of tr).*1
      = (fun ma => overpass_request ma.1 query_body timeout) <$> sched
      /\ failures_of tr = sched
      /\ length (errors_of tr) = length sched
      /\ e = RuntimeError "All Overpass mirrors failed" (last (errors_of tr))
  end
  /\ forall m1 m2 others,
       OVERPASS_MIRRORS = m1 :: m2 :: others ->
       (forall req w0, req_url req = m1 -> is_error (send req w0).1 = true) ->
       (forall req w0, req_url req = m2 -> is_error (send req w0).1 = false) ->
       1 <= max_retries ->
       exists j tr0,
         r = Val j
         /\ tr = tr0 ++ [EvRequest (overpass_request m2 query_body timeout)
                           (RespJson j)]
         /\ (requests_of tr0).*1
            = replicate (Z.to_nat max_retries)
                (overpass_request m1 query_body timeout).
Proof.
  unfold query_overpass_with_mirrors, bind.
  pose proof (mirror_loop_run OVERPASS_MIRRORS None w) as Hrun.
  destruct (mirror_loop _ OVERPASS_MIRRORS _ _ _ _ w) as [[r tr] w'] eqn:Hloop.
  destruct r as [[j|last_exc]|e]; [| |done];
    cbv beta iota zeta delta [ret raise]; rewrite app_nil_r; split.
  - destruct Hrun as (k & tr0 & mirror & attempt & Hk & -> & Hfail & Hsent).
    destruct Hfail as (Hr & Hf & He & _).
    exists k, tr0, mirror, attempt.
    split; [done|]. split; [done|]. split; [done|]. split; [done|].
    split; [|done].
    rewrite He, length_take. apply lookup_lt_Some in Hk. lia.
  - intros m1 m2 others Hm Herr1 Hok2 Hmr. rewrite Hm in Hloop.
    destruct (mirror_loop_failover m1 m2 others None w Herr1 Hok2 Hmr)
      as (j2 & tr1 & w2 & Hfo & Hreq).
    rewrite Hfo in Hloop. injection Hloop as <- <- <-.
    by exists j2, tr1.
  - destruct Hrun as [(Hr & Hf & He & _) ->].
    by rewrite last_exc_after_None.
  - intros m1 m2 others Hm Herr1 Hok2 Hmr. rewrite Hm in Hloop.
    destruct (mirror_loop_failover m1 m2 others None w Herr1 Hok2 Hmr)
      as (j2 & tr1 & w2 & Hfo & Hreq).
    rewrite Hfo in Hloop. discriminate Hloop.
Qed.


Lemma schedule_length mirrors :
  length (schedule mirrors max_retries)
  = (length mirrors * Z.to_nat max_retries)%nat.
Proof.
  induction mirrors as [|m l IH]; [done|].
  rewrite schedule_cons, length_app, length_fmap, length_seqZ, IH. cbn. lia.
Qed.

(** C2: when every attempt on every mirror errors, the client raises the
    RuntimeError "All Overpass mirrors failed" whose cause is the last error
    met, after having tried the whole schedule; nothing is returned. *)
Theorem query_overpass_all_mirrors_exhausted (w : World) :
  (forall req w0, is_error (send req w0).1 = true) ->
  let '(r, tr, _) :=
    query_overpass_with_mirrors (F:=F) send query_body timeout max_retries w in
  r = Exc (RuntimeError "All Overpass mirrors failed" (last (errors_of tr)))
  /\ failures_of tr = schedule OVERPASS_MIRRORS max_retries
  /\ length (errors_of tr) = length (requests_of tr)
  /\ length (requests_of tr) = (4 * Z.to_nat max_retries)%nat
  /\ (1 <= max_retries -> is_Some (last (errors_of tr))).
Proof.
  intros Herr. unfold query_overpass_with_mirrors, bind.
  pose proof (mirror_loop_run OVERPASS_MIRRORS None w) as Hrun.
  destruct (mirror_loop _ OVERPASS_MIRRORS _ _ _ _ w) as [[r tr] w'].
  destruct r as [[j|last_exc]|e]; [| |done].
  - exfalso. destruct Hrun as (k & tr0 & mirror & attempt & _ & -> & _ & Hsent).
    apply (returned_not_error tr0 mirror j); [|done].
    intros req w0 _. apply Herr.
  - cbv beta iota zeta delta [raise]. rewrite app_nil_r.
    destruct Hrun as [(Hr & Hf & He & _) ->].
    assert (Hlen : length (requests_of tr) = (4 * Z.to_nat max_retries)%nat).
    { rewrite <- (length_fmap fst), Hr, length_fmap, schedule_length. done. }
    rewrite last_exc_after_None. split; [done|]. split; [done|].
    split; [by rewrite He, schedule_length, Hlen|]. split; [done|].
    intros Hmr. apply last_is_Some. intros Hnil.
    rewrite Hnil, schedule_length in He. cbn in He. lia.
Qed.

End Client.

Lemma query_overpass_failover_witness :
  exists j tr0,
    (query_overpass_with_mirrors (F:=Q) first_mirror_down "q" 90 MAX_RETRIES
       0%nat).1
    = (Val j,
       tr0 ++ [EvRequest
                 (overpass_request "https://lz4.overpass-api.de/api/interpreter"
                    "q" 90) (RespJson j)])
    /\ (requests_of tr0).*1
       = replicate 3
           (overpass_request "https://overpass-api.de/api/interpreter" "q" 90).
Proof.
  pose proof (query_overpass_failover (F:=Q) first_mirror_down "q" 90
                MAX_RETRIES 0%nat) as H.
  destruct (query_overpass_with_mirrors first_mirror_down "q" 90 MAX_RETRIES
              0%nat) as [[r tr] w'].
  destruct H as [_ H].
  destruct (H _ _ _ eq_refl) as (j & tr0 & -> & -> & Hreq).
  - intros req w0 Hurl. unfold first_mirror_down. by rewrite Hurl.
  - intros req w0 Hurl. unfold first_mirror_down. by rewrite Hurl.
  - unfold MAX_RETRIES. lia.
  - by exists j, tr0.
Defined.

Lemma query_overpass_all_mirrors_exhausted_witness :
  let '(r, tr, _) :=
    query_overpass_with_mirrors (F:=Q) all_mirrors_down "q" 90 MAX_RETRIES
      0%nat in
  r = Exc (RuntimeError "All Overpass mirrors failed" (last (errors_of tr)))
  /\ failures_of tr = schedule OVERPASS_MIRRORS MAX_RETRIES
  /\ length (errors_of tr) = length (requests_of tr)
  /\ length (requests_of tr) = (4 * Z.to_nat MAX_RETRIES)%nat
  /\ (1 <= MAX_RETRIES -> is_Some (last (errors_of tr))).
Proof.
  apply (query_overpass_all_mirrors_exhausted (F:=Q) all_mirrors_down "q" 90
           MAX_RETRIES 0%nat).
  intros req w0. reflexivity.
Defined.

(** The run of the client in that world: twelve time-outs, then the error. *)
Example all_mirrors_down_run :
  let '(r, tr, w) :=
    query_overpass_with_mirrors (F:=Q) all_mirrors_down "q" 90 MAX_RETRIES
      0%nat in
  r = Exc (RuntimeError "All Overpass mirrors failed"
             (Some (RequestException "ReadTimeout")))
  /\ length (requests_of tr) = 12%nat
  /\ w = 12%nat.
Proof. vm_compute. done. Qed.

(** ** Region Resolver *)

Section Resolver.

Context {F : Type} `{PyFloat F} {World : Type}.
Variable send : request -> World -> response * World.
Variable path_exists : string -> World -> bool.

(** C6: when the first element of the geocoding response carries a
    boundingbox of four numeric strings, index 0 is read as south, index 1
    as north, index 2 as west and index 3 as east, each converted by float,
    and the result is the tuple (south, west, north, east, display_name). *)
Theorem nominatim_bbox_field_order city_name email timeout w w'
    (m : gmap string json) (others : list json)
    (s0 s1 s2 s3 : string) (south north west east : F) :
  send (nominatim_request city_name email timeout) w
    = (RespJson (JArr (JObj m :: others)), w') ->
  m !! "boundingbox" = Some (JArr [JStr s0; JStr s1; JStr s2; JStr s3]) ->
  of_str s0 = Some south ->
  of_str s1 = Some north ->
  of_str s2 = Some west ->
  of_str s3 = Some east ->
  nominatim_bbox send city_name email timeout w
  = (Val (Some (south, west, north, east,
                default (JStr "") (m !! "display_name"))),
     [EvRequest (nominatim_request city_name email timeout)
        (RespJson (JArr (JObj m :: others)))],
     w').
Proof.
  intros Hsend Hbb H0 H1 H2 H3.
  unfold nominatim_bbox, bind, http_json. rewrite Hsend.
  cbn. rewrite Hbb. cbn. rewrite H0, H1, H2, H3. reflexivity.
Qed.

(** C9, as the code has it: on an empty result list the resolver raises
    nothing and returns None; unpacking that None in the orchestrator raises
    TypeError inside its try block, so the region is reported as failed and
    abandoned: no tile is fetched and no file is written. *)
Theorem nominatim_bbox_no_match city_name w w' :
  send (nominatim_request city_name None 10) w = (RespJson (JArr []), w') ->
  path_exists (out_path city_name) w = false ->
  nominatim_bbox send city_name None 10 w
    = (Val None,
       [EvRequest (nominatim_request city_name None 10) (RespJson (JArr []))],
       w')
  /\ process_city send path_exists city_name w
    = (Val tt,
       [EvPrint (PStart city_name);
        EvRequest (nominatim_request city_name None 10) (RespJson (JArr []));
        EvPrint (PNominatimFailed TypeError)],
       w').
Proof.
  intros Hsend Hpath.
  assert (Hnone : nominatim_bbox send city_name None 10 w
                  = (Val None,
                     [EvRequest (nominatim_request city_name None 10)
                        (RespJson (JArr []))], w')).
  { unfold nominatim_bbox, bind, http_json. by rewrite Hsend. }
  split; [exact Hnone|].
  unfold process_city, bind at 1, exists_. fold (out_path city_name).
  rewrite Hpath. cbn [andb]. unfold bind at 1. cbn [print emit].
  unfold bind at 1, resolve, try_except, bind at 1. rewrite Hnone.
  reflexivity.
Qed.

End Resolver.

Lemma nominatim_bbox_field_order_witness :
  nominatim_bbox (F:=Q) qom_empty_world "Qom" None 10 0%nat
  = (Val (Some ((345 # 10)%Q, (507 # 10)%Q, (347 # 10)%Q, (509 # 10)%Q,
                JStr "Qom, Iran")),
     [EvRequest (nominatim_request "Qom" None 10) (RespJson qom_match)],
     1%nat).
Proof.
  exact (nominatim_bbox_field_order (F:=Q) qom_empty_world "Qom" None 10
           0%nat 1%nat _ [] "34.5" "34.7" "50.7" "50.9"
           (345 # 10)%Q (347 # 10)%Q (507 # 10)%Q (509 # 10)%Q
           eq_refl eq_refl eq_refl eq_refl eq_refl eq_refl).
Defined.

(** C9 as stated fails: with no match the resolver returns, it does not
    raise. *)
Lemma nominatim_bbox_no_match_returns :
  (nominatim_bbox (F:=Q) nowhere_world "Atlantis" None 10 0%nat).1.1 = Val None
  /\ ~ (exists e,
         (nominatim_bbox (F:=Q) nowhere_world "Atlantis" None 10 0%nat).1.1
         = Exc e).
Proof. split; [reflexivity|]. intros [e He]. discriminate He. Qed.

Lemma nominatim_bbox_no_match_witness :
  nominatim_bbox (F:=Q) nowhere_world "Atlantis" None 10 0%nat
    = (Val None,
       [EvRequest (nominatim_request "Atlantis" None 10) (RespJson (JArr []))],
       1%nat)
  /\ process_city (F:=Q) nowhere_world no_file "Atlantis" 0%nat
    = (Val tt,
       [EvPrint (PStart "Atlantis");
        EvRequest (nominatim_request "Atlantis" None 10) (RespJson (JArr []));
        EvPrint (PNominatimFailed TypeError)],
       1%nat).
Proof.
  exact (nominatim_bbox_no_match (F:=Q) nowhere_world no_file "Atlantis"
           0%nat 1%nat eq_refl eq_refl).
Defined.

(** ** Pipeline Orchestrator *)

Section Orchestrator.

Context {F : Type} `{PyFloat F} {World : Type}.
Variable send : request -> World -> response * World.
Variable path_exists : string -> World -> bool.

#[local] Notation "'event'" := (@event F).
#[local] Notation "'M'" := (@M F World).
#[local] Notation "'quiet'" := (@quiet_run F World _).

Lemma quiet_ret {A} (a : A) : quiet (ret a).
Proof. intros w. constructor. Qed.

Lemma quiet_raise {A} e : quiet (raise (A:=A) e).
Proof. intros w. constructor. Qed.

Lemma quiet_lift {A} (r : res A) : quiet (lift r).
Proof. intros w. constructor. Qed.

Lemma quiet_emit (ev : event) : fetch_event ev -> quiet (emit ev).
Proof. intros Hev w. cbn. constructor; [done|constructor]. Qed.

Lemma quiet_http req : quiet (http_json send req).
Proof.
  intros w. unfold http_json. destruct (send req w). cbn.
  constructor; [done|constructor].
Qed.

Lemma quiet_bind {A B} (m : M A) (f : A -> M B) :
  quiet m -> (forall a, quiet (f a)) -> quiet (bind m f).
Proof.
  intros Hm Hf w. unfold bind. specialize (Hm w).
  destruct (m w) as [[[a|e] tr] w1]; cbn in *; [|done].
  specialize (Hf a w1). destruct (f a w1) as [[r tr'] w2]; cbn in *.
  by apply Forall_app_2.
Qed.

Lemma quiet_try {A} (m : M A) (h : exn -> M A) :
  quiet m -> (forall e, quiet (h e)) -> quiet (try_except m h).
Proof.
  intros Hm Hh w. unfold try_except. specialize (Hm w).
  destruct (m w) as [[[a|e] tr] w1]; cbn in *; [done|].
  specialize (Hh e w1). destruct (h e w1) as [[r tr'] w2]; cbn in *.
  by apply Forall_app_2.
Qed.

Lemma quiet_attempt_loop mirror q t mr attempts : forall last_exc,
  quiet (attempt_loop send mirror q t mr attempts last_exc).
Proof.
  induction attempts as [|a rest IH]; intros last_exc; [apply quiet_ret|].
  cbn [attempt_loop]. apply quiet_bind.
  - apply quiet_try.
    + apply quiet_bind; [apply quiet_http|]. intros j. apply quiet_ret.
    + intros []; try apply quiet_raise;
        (apply quiet_bind; [by apply quiet_emit|intros _; apply quiet_ret]).
  - intros [j|last_exc']; [apply quiet_ret|].
    apply quiet_bind; [by apply quiet_emit|]. intros _. apply IH.
Qed.

Lemma quiet_mirror_loop mirrors q t mr : forall last_exc,
  quiet (mirror_loop send mirrors q t mr last_exc).
Proof.
  induction mirrors as [|m rest IH]; intros last_exc; [apply quiet_ret|].
  cbn [mirror_loop]. apply quiet_bind; [apply quiet_attempt_loop|].
  intros [j|last_exc']; [apply quiet_ret|].
  apply quiet_bind; [by apply quiet_emit|]. intros _. apply IH.
Qed.

Lemma quiet_query q t mr : quiet (query_overpass_with_mirrors send q t mr).
Proof.
  apply quiet_bind; [apply quiet_mirror_loop|].
  intros [j|last_exc]; [apply quiet_ret|apply quiet_raise].
Qed.

Lemma quiet_tile_loop template total tiles : forall all_elements failed_tiles,
  quiet (tile_loop send template total tiles all_elements failed_tiles).
Proof.
  induction tiles as [|[idx tb] rest IH]; intros all_elements failed_tiles;
    [apply quiet_ret|].
  cbn [tile_loop]. apply quiet_bind; [by apply quiet_emit|]. intros _.
  apply quiet_bind.
  - apply quiet_try.
    + apply quiet_bind; [apply quiet_query|]. intros data.
      apply quiet_bind; [apply quiet_lift|]. intros elems.
      apply quiet_bind; [apply quiet_lift|]. intros n.
      apply quiet_bind; [by apply quiet_emit|]. intros _.
      apply quiet_bind; [apply quiet_lift|]. intros more. apply quiet_ret.
    + intros e. apply quiet_bind; [by apply quiet_emit|]. intros _.
      apply quiet_ret.
  - intros acc. apply quiet_bind; [by apply quiet_emit|]. intros _. apply IH.
Qed.

Lemma quiet_nominatim city_name email timeout :
  quiet (nominatim_bbox send city_name email timeout).
Proof.
  apply quiet_bind; [apply quiet_http|]. intros j.
  destruct (negb (truthy j)); [apply quiet_ret|].
  repeat (apply quiet_bind; [apply quiet_lift|]; intros ?). apply quiet_ret.
Qed.

Lemma quiet_resolve city_name : quiet (resolve send city_name).
Proof.
  apply quiet_try.
  - apply quiet_bind; [apply quiet_nominatim|].
    intros [[[[[s w] n] e] display]|]; [|apply quiet_raise].
    apply quiet_bind; [by apply quiet_emit|]. intros _. apply quiet_ret.
  - intros e. apply quiet_bind; [by apply quiet_emit|]. intros _.
    apply quiet_ret.
Qed.





Lemma fetch_events_write_nothing (pre : list event) :
  Forall fetch_event pre ->
  csv_writes pre = [] /\ json_writes pre = []
  /\ forall unique failed, EvPrint (PTotal unique failed) ∉ pre.
Proof.
  induction 1 as [|ev pre Hev _ (IH1 & IH2 & IH3)].
  - repeat split. intros ? ? Hin. by inversion Hin.
  - destruct ev as [? ?|p|?|? ? ?|? ?]; try done; cbn [csv_writes json_writes omap];
      (split; [exact IH1|]; split; [exact IH2|]).
    + intros ? ? Hin. apply elem_of_cons in Hin as [?|Hin]; [done|].
      by eapply IH3.
    + intros ? ? Hin. apply elem_of_cons in Hin as [Heq|Hin]; [|by eapply IH3].
      injection Heq as <-. done.
    + intros ? ? Hin. apply elem_of_cons in Hin as [?|Hin]; [done|].
      by eapply IH3.
Qed.

Lemma extract_all_length elements city_name records :
  extract_all elements city_name = Val records ->
  length records = length elements.
Proof.
  revert records. induction elements as [|el rest IH]; intros records; cbn.
  - by intros [= <-].
  - destruct (extract_shop_record el city_name); [|done]. cbn.
    destruct (extract_all rest city_name) as [rs|]; [|done]. cbn.
    intros [= <-]. cbn. by rewrite (IH rs).
Qed.




End Orchestrator.


(** * Further properties

    ** [sanitize_filename] *)

Section Sanitize.

Implicit Types (l : list ascii) (c : ascii).

Lemma chars_of_chars l :
  String.list_ascii_of_string (String.string_of_list_ascii l) = l.
Proof. apply String.list_ascii_of_string_of_list_ascii. Qed.

Lemma sub_runs_safe l : forall in_run c,
  c ∈ sub_runs l in_run -> unsafe_char c = false.
Proof.
  induction l as [|x l IH]; intros in_run c; cbn; [by inversion 1|].
  destruct (unsafe_char x) eqn:Hx.
  - destruct in_run; [by apply IH|].
    intros [->|Hin]%elem_of_cons; [reflexivity|by eapply IH].
  - intros [->|Hin]%elem_of_cons; [done|by eapply IH].
Qed.

(** X1: the sanitized name holds none of the characters the file system
    refuses: no backslash, slash, colon, double quote, star, question mark,
    angle bracket or bar. *)
Theorem sanitize_filename_safe (name : string) :
  Forall (fun c => unsafe_char c = false)
    (String.list_ascii_of_string (sanitize_filename name)).
Proof.
  unfold sanitize_filename. rewrite chars_of_chars.
  apply Forall_forall. intros c. apply sub_runs_safe.
Qed.

Lemma lstrip_head l c : head (lstrip l) = Some c -> is_space c = false.
Proof.
  induction l as [|x l IH]; cbn; [done|].
  destruct (is_space x) eqn:Hx; [done|]. cbn. by intros [= <-].
Qed.

Lemma lstrip_last l c : last (lstrip l) = Some c -> last l = Some c.
Proof.
  induction l as [|x l IH]; cbn [lstrip]; [done|].
  destruct (is_space x); [|done]. intros Hl. specialize (IH Hl).
  destruct l; [done|]. exact IH.
Qed.

Lemma lstrip_fixed l :
  (forall c, head l = Some c -> is_space c = false) -> lstrip l = l.
Proof. destruct l as [|x l]; cbn; [done|]. intros Hx. by rewrite Hx. Qed.

Lemma head_rev l : head (rev l) = last l.
Proof.
  induction l as [|x l IH] using rev_ind; [done|].
  by rewrite rev_unit, last_snoc.
Qed.

Lemma last_rev l : last (rev l) = head l.
Proof. by rewrite <- head_rev, rev_involutive. Qed.

Lemma strip_chars_trimmed l : trimmed (rev (lstrip (rev (lstrip l)))).
Proof.
  split; intros c.
  - rewrite head_rev. intros Hc%lstrip_last.
    rewrite last_rev in Hc. by apply lstrip_head in Hc.
  - rewrite last_rev. apply lstrip_head.
Qed.

Lemma strip_chars_fixed l : trimmed l -> rev (lstrip (rev (lstrip l))) = l.
Proof.
  intros [Hh Hl]. rewrite (lstrip_fixed l Hh), lstrip_fixed.
  - apply rev_involutive.
  - intros c. rewrite head_rev. apply Hl.
Qed.

Lemma sub_runs_nonempty l : l <> [] -> sub_runs l false <> [].
Proof. destruct l as [|x l]; [done|]. cbn. by destruct (unsafe_char x). Qed.

Lemma unsafe_not_space c : unsafe_char c = true -> is_space c = false.
Proof.
  unfold unsafe_char, is_space. intros Hc%bool_decide_eq_true.
  repeat (apply elem_of_cons in Hc as [->|Hc]; [reflexivity|]).
  by inversion Hc.
Qed.

Lemma sub_runs_last l : forall in_run c,
  (forall x, last l = Some x -> is_space x = false) ->
  last (sub_runs l in_run) = Some c -> is_space c = false.
Proof.
  induction l as [|x l IH]; intros in_run c Hl; cbn; [done|].
  destruct (decide (l = [])) as [->|Hne].
  - cbn. destruct (unsafe_char x) eqn:Hx.
    + destruct in_run; cbn; [done|]. by intros [= <-].
    + cbn. intros [= <-]. by apply Hl.
  - assert (Hl' : forall y, last l = Some y -> is_space y = false).
    { intros y Hy. apply Hl. destruct l; [done|]. exact Hy. }
    destruct (unsafe_char x) eqn:Hx.
    + destruct in_run; [by apply IH|].
      destruct (sub_runs l true) as [|y rest] eqn:Hsub.
      * cbn. by intros [= <-].
      * intros Hc. apply (IH true c Hl'). by rewrite Hsub.
    + pose proof (sub_runs_nonempty l Hne) as Hnil.
      destruct (sub_runs l false) as [|y rest] eqn:Hsub; [done|].
      intros Hc. apply (IH false c Hl'). by rewrite Hsub.
Qed.

Lemma sub_runs_trimmed l : trimmed l -> trimmed (sub_runs l false).
Proof.
  intros [Hh Hl]. split; intros c.
  - destruct l as [|x l]; cbn; [done|].
    destruct (unsafe_char x) eqn:Hx; cbn; intros [= <-]; [reflexivity|].
    by apply Hh.
  - by apply sub_runs_last.
Qed.

Lemma sub_runs_fixed l :
  Forall (fun c => unsafe_char c = false) l -> sub_runs l false = l.
Proof. induction 1 as [|x l Hx _ IH]; cbn; [done|]. by rewrite Hx, IH. Qed.

(** X2: sanitizing is idempotent: a sanitized name is left as it is, and it
    has no whitespace at either end. *)
Theorem sanitize_filename_idempotent (name : string) :
  sanitize_filename (sanitize_filename name) = sanitize_filename name
  /\ trimmed (String.list_ascii_of_string (sanitize_filename name)).
Proof.
  pose proof (sanitize_filename_safe name) as Hsafe.
  unfold sanitize_filename, strip in *. rewrite !chars_of_chars in *.
  set (l := String.list_ascii_of_string name) in *.
  assert (Ht : trimmed (sub_runs (rev (lstrip (rev (lstrip l)))) false))
    by apply sub_runs_trimmed, strip_chars_trimmed.
  split; [|exact Ht].
  by rewrite strip_chars_fixed, sub_runs_fixed.
Qed.

End Sanitize.

(** ** [query_overpass_with_mirrors]: pauses and the empty schedule *)

Section ClientPauses.

Context {F : Type} {World : Type}.
Variable send : request -> World -> response * World.
Variables (query_body : string) (timeout max_retries : Z).

#[local] Notation "'event'" := (@event F).

Lemma paced_app (tr1 tr2 : list event) :
  paced tr1 -> paced tr2 -> paced (tr1 ++ tr2).
Proof.
  unfold paced, sleeps_of, failures_of. intros H1 H2.
  rewrite !omap_app, fmap_app. by f_equal.
Qed.

Lemma attempt_loop_paced mirror attempts : forall last_exc w,
  paced (attempt_loop (F:=F) send mirror query_body timeout max_retries
           attempts last_exc w).1.2.
Proof.
  induction attempts as [|attempt rest IH]; intros last_exc w; [done|].
  cbn [attempt_loop]. unfold bind, try_except, http_json.
  match goal with
  | |- context [send ?r w] => destruct (send r w) as [resp w1]
  end.
  destruct resp as [j|status|name]; cbn; [done| |].
  - specialize (IH (Some (HTTPError status)) w1).
    destruct (attempt_loop _ _ _ _ _ rest _ w1) as [[r2 tr2] w2].
    apply (paced_app [EvRequest _ _; EvPrint _; EvSleep _] tr2); [done|exact IH].
  - specialize (IH (Some (RequestException name)) w1).
    destruct (attempt_loop _ _ _ _ _ rest _ w1) as [[r2 tr2] w2].
    apply (paced_app [EvRequest _ _; EvPrint _; EvSleep _] tr2); [done|exact IH].
Qed.

Lemma mirror_loop_paced mirrors : forall last_exc w,
  paced (mirror_loop (F:=F) send mirrors query_body timeout max_retries
           last_exc w).1.2.
Proof.
  induction mirrors as [|mirror rest IH]; intros last_exc w; [done|].
  cbn [mirror_loop]. unfold bind.
  pose proof (attempt_loop_paced mirror (seqZ 1 max_retries) last_exc w) as H1.
  destruct (attempt_loop _ _ _ _ _ _ _ w) as [[r1 tr1] w1].
  destruct r1 as [[j|last_exc1]|e]; cbn in *.
  - by rewrite app_nil_r.
  - specialize (IH last_exc1 w1).
    destruct (mirror_loop _ rest _ _ _ _ w1) as [[r2 tr2] w2]. cbn in *.
    apply paced_app; [done|]. by apply (paced_app [EvPrint _] tr2).
  - done.
Qed.

(** X3: in every run of the client the pauses are exactly the back-off
    pauses: BACKOFF_BASE^attempt seconds after each reported failure, in
    order, also after the last attempt on a mirror and on the last mirror.
    So a run that raises has first slept through the whole schedule. *)
Theorem query_overpass_backoff (w : World) :
  let '(r, tr, _) :=
    query_overpass_with_mirrors (F:=F) send query_body timeout max_retries w in
  sleeps_of tr = (fun ma => BACKOFF_BASE ^ ma.2) <$> failures_of tr
  /\ forall e, r = Exc e ->
       sleeps_of tr
       = (fun ma => BACKOFF_BASE ^ ma.2)
           <$> schedule OVERPASS_MIRRORS max_retries.
Proof.
  unfold query_overpass_with_mirrors, bind.
  pose proof (mirror_loop_paced OVERPASS_MIRRORS None w) as Hp.
  pose proof (mirror_loop_run (F:=F) send query_body timeout max_retries
                OVERPASS_MIRRORS None w) as Hrun.
  destruct (mirror_loop _ OVERPASS_MIRRORS _ _ _ _ w) as [[r tr] w'].
  destruct r as [[j|last_exc]|e]; [| |done];
    cbv beta iota zeta delta [ret raise]; rewrite app_nil_r;
    (split; [exact Hp|]); intros e He; [done|].
  destruct Hrun as [(_ & Hf & _) _]. cbn in Hp. by rewrite Hp, Hf.
Qed.

(** X4: with max_retries <= 0 the client sends nothing: it gives up on
    every mirror in turn and raises the RuntimeError with no cause, the
    world untouched. *)
Theorem query_overpass_no_attempts (w : World) :
  max_retries <= 0 ->
  query_overpass_with_mirrors (F:=F) send query_body timeout max_retries w
  = (Exc (RuntimeError "All Overpass mirrors failed" None),
     (fun mirror => EvPrint (PMirrorExhausted mirror)) <$> OVERPASS_MIRRORS,
     w).
Proof.
  intros Hmr. unfold query_overpass_with_mirrors, OVERPASS_MIRRORS.
  cbn [mirror_loop]. rewrite (seqZ_nil 1 max_retries) by lia. reflexivity.
Qed.

End ClientPauses.

Lemma query_overpass_no_attempts_witness :
  query_overpass_with_mirrors (F:=Q) first_mirror_down "q" 90 0 7%nat
  = (Exc (RuntimeError "All Overpass mirrors failed" None),
     (fun mirror => EvPrint (PMirrorExhausted mirror)) <$> OVERPASS_MIRRORS,
     7%nat).
Proof.
  apply (query_overpass_no_attempts (F:=Q) first_mirror_down "q" 90 0 7%nat).
  lia.
Defined.

(** With every mirror down the client sleeps 2, 4 and 8 seconds on each of
    the four mirrors before it raises. *)
Lemma query_overpass_backoff_witness :
  sleeps_of
    (query_overpass_with_mirrors (F:=Q) all_mirrors_down "q" 90 MAX_RETRIES
       0%nat).1.2
  = [2; 4; 8; 2; 4; 8; 2; 4; 8; 2; 4; 8].
Proof.
  pose proof (query_overpass_backoff (F:=Q) all_mirrors_down "q" 90
                MAX_RETRIES 0%nat) as Hb.
  assert (Hr : (query_overpass_with_mirrors (F:=Q) all_mirrors_down "q" 90
                  MAX_RETRIES 0%nat).1.1
               = Exc (RuntimeError "All Overpass mirrors failed"
                        (Some (RequestException "ReadTimeout"))))
    by (vm_compute; reflexivity).
  destruct (query_overpass_with_mirrors all_mirrors_down "q" 90 MAX_RETRIES
              0%nat) as [[r tr] w'].
  cbn [fst snd] in *. destruct Hb as [_ Hb]. rewrite (Hb _ Hr).
  reflexivity.
Defined.

(** ** [nominatim_bbox] and [process_city]: failures and resumption *)

Section ResolverFailures.

Context {F : Type} `{PyFloat F} {World : Type}.
Variable send : request -> World -> response * World.
Variable path_exists : string -> World -> bool.

#[local] Notation "'event'" := (@event F).

(** X5: the resolver sends exactly one request, whatever comes back, and
    never retries: an HTTP error or a request error is raised as it is, and
    None is returned exactly when the decoded answer is falsy (an empty
    list). *)
Theorem nominatim_bbox_single_request city_name email timeout (w : World) :
  let req := nominatim_request city_name email timeout in
  let '(resp, w1) := send req w in
  let '(r, tr, w') := nominatim_bbox send city_name email timeout w in
  tr = [EvRequest req resp]
  /\ w' = w1
  /\ match resp with
     | RespHTTPError status => r = Exc (HTTPError status)
     | RespRequestError name => r = Exc (RequestException name)
     | RespJson j => r = Val None <-> truthy j = false
     end.
Proof.
  cbv zeta. unfold nominatim_bbox, bind, http_json.
  destruct (send (nominatim_request city_name email timeout) w)
    as [resp w1].
  destruct resp as [j|status|name]; [|done..].
  destruct (truthy j) eqn:Hj; cbn [negb].
  - unfold lift, ret.
    repeat match goal with
    | |- context [match ?x with Val _ => _ | Exc _ => _ end] =>
        destruct x; cbv beta iota zeta
    end; rewrite ?app_nil_r; (split; [done|split; [done|]]); by split.
  - cbn. by repeat split.
Qed.

(** X6: a malformed first entry makes the resolver raise: KeyError when
    it has no boundingbox, IndexError when the boundingbox array is empty,
    ValueError when its first item is a string that is no number. *)
Theorem nominatim_bbox_malformed city_name email timeout (w w' : World)
    (m : gmap string json) (others : list json) :
  send (nominatim_request city_name email timeout) w
    = (RespJson (JArr (JObj m :: others)), w') ->
  let r := (nominatim_bbox send city_name email timeout w).1.1 in
  (m !! "boundingbox" = None -> r = Exc KeyError)
  /\ (m !! "boundingbox" = Some (JArr []) -> r = Exc IndexError)
  /\ (forall s rest,
        m !! "boundingbox" = Some (JArr (JStr s :: rest)) ->
        of_str s = None -> r = Exc ValueError).
Proof.
  intros Hsend. cbv zeta. unfold nominatim_bbox, bind, http_json.
  rewrite Hsend. cbn. repeat split.
  - intros ->. reflexivity.
  - intros ->. reflexivity.
  - intros s rest -> Hs. cbn. rewrite Hs. reflexivity.
Qed.

(** X7: when the resolver raises, for whatever reason, the region is
    abandoned: the failure is reported, the run ends normally, and nothing
    follows the resolver's own events: no tile query, no file. *)
Theorem process_city_resolver_raises city_name (w w' : World) e
    (tr : list event) :
  path_exists (out_path city_name) w = false ->
  nominatim_bbox send city_name None 10 w = (Exc e, tr, w') ->
  process_city send path_exists city_name w
  = (Val tt,
     EvPrint (PStart city_name) :: tr ++ [EvPrint (PNominatimFailed e)],
     w').
Proof.
  intros Hpath Hres.
  unfold process_city, bind at 1, exists_. fold (out_path city_name).
  rewrite Hpath. cbn [andb]. unfold bind at 1. cbn [print emit].
  unfold bind at 1, resolve, try_except, bind at 1. rewrite Hres.
  cbv beta iota zeta delta [bind print emit ret]. by rewrite app_nil_r.
Qed.

(** X8: a region whose table already exists is skipped: one line is
    printed, no request is sent and nothing is written. *)
Theorem process_city_resume city_name (w : World) :
  path_exists (out_path city_name) w = true ->
  process_city (F:=F) send path_exists city_name w
  = (Val tt, [EvPrint (PSkip city_name (out_path city_name))], w).
Proof.
  intros Hpath.
  unfold process_city, bind at 1, exists_. fold (out_path city_name).
  by rewrite Hpath.
Qed.

End ResolverFailures.

Lemma nominatim_bbox_malformed_witness :
  (nominatim_bbox (F:=Q) no_bbox_world "Qom" None 10 0%nat).1.1
  = Exc KeyError.
Proof.
  apply (nominatim_bbox_malformed (F:=Q) no_bbox_world "Qom" None 10
           0%nat 1%nat _ [] eq_refl).
  reflexivity.
Defined.

Lemma process_city_resolver_raises_witness :
  process_city (F:=Q) geocoder_down no_file "Qom" 0%nat
  = (Val tt,
     [EvPrint (PStart "Qom");
      EvRequest (nominatim_request "Qom" None 10)
        (RespRequestError "ConnectionError");
      EvPrint (PNominatimFailed (RequestException "ConnectionError"))],
     1%nat).
Proof.
  exact (process_city_resolver_raises (F:=Q) geocoder_down no_file "Qom"
           0%nat 1%nat _ _ eq_refl eq_refl).
Defined.

Lemma process_city_resume_witness :
  process_city (F:=Q) geocoder_down every_file "Qom" 0%nat
  = (Val tt, [EvPrint (PSkip "Qom" (out_path "Qom"))], 0%nat).
Proof.
  exact (process_city_resume (F:=Q) geocoder_down every_file "Qom" 0%nat
           eq_refl).
Defined.

(** ** The tile loop of [process_city] *)

Section TileLoop.

Context {F : Type} `{PyFloat F} {World : Type}.
Variable send : request -> World -> response * World.
Variable path_exists : string -> World -> bool.

#[local] Notation "'event'" := (@event F).
#[local] Notation "'M'" := (@M F World).

Lemma answers_of_app (tr1 tr2 : list event) :
  answers_of (tr1 ++ tr2) = answers_of tr1 ++ answers_of tr2.
Proof. apply omap_app. Qed.

Lemma fetched_app (tr1 tr2 : list event) :
  fetched (tr1 ++ tr2) = fetched tr1 ++ fetched tr2.
Proof. unfold fetched. by rewrite answers_of_app, fmap_app, join_app. Qed.

Lemma errors_le_requests (tr : list event) :
  (length (errors_of tr) <= length (requests_of tr))%nat.
Proof.
  unfold errors_of, requests_of.
  induction tr as [|ev tr IH]; [done|].
  destruct ev as [req [j|status|name]|p|?|? ? ?|? ?]; cbn; lia.
Qed.

(** A run in which every request failed got no answer. *)
Lemma no_answer (tr : list event) :
  length (errors_of tr) = length (requests_of tr) -> answers_of tr = [].
Proof.
  induction tr as [|ev tr IH]; [done|].
  pose proof (errors_le_requests tr) as Hle.
  unfold errors_of, requests_of, answers_of in *.
  destruct ev as [req [j|status|name]|p|?|? ? ?|? ?]; cbn; intros Hlen;
    try (apply IH; lia).
  lia.
Qed.

Lemma all_failed_no_answer q t sched (tr : list event) :
  all_failed send q t sched tr -> answers_of tr = [].
Proof.
  intros (Hr & _ & He & _). apply no_answer.
  by rewrite He, <- (length_fmap fst (requests_of tr)), Hr, length_fmap.
Qed.

(** The client's run got the answer it returned, and no other. *)
Lemma query_answers q t mr (w : World) :
  let '(r, tr, _) := query_overpass_with_mirrors (F:=F) send q t mr w in
  answers_of tr = match r with Val j => [j] | Exc _ => [] end.
Proof.
  unfold query_overpass_with_mirrors, bind.
  pose proof (mirror_loop_run (F:=F) send q t mr OVERPASS_MIRRORS None w)
    as Hrun.
  destruct (mirror_loop _ OVERPASS_MIRRORS _ _ _ _ w) as [[r tr] w'].
  destruct r as [[j|last_exc]|e]; [| |done];
    cbv beta iota zeta delta [ret raise]; rewrite app_nil_r.
  - destruct Hrun as (k & tr0 & mirror & attempt & _ & -> & Hfail & _).
    rewrite answers_of_app, (all_failed_no_answer _ _ _ _ Hfail). done.
  - destruct Hrun as [Hfail _]. by eapply all_failed_no_answer.
Qed.

Lemma client_events_app (tr1 tr2 : list event) :
  Forall client_event tr1 -> Forall client_event tr2 ->
  Forall client_event (tr1 ++ tr2).
Proof. apply Forall_app_2. Qed.

Lemma attempt_loop_events mirror q t mr attempts : forall last_exc w,
  Forall client_event
    (attempt_loop (F:=F) send mirror q t mr attempts last_exc w).1.2.
Proof.
  induction attempts as [|attempt rest IH]; intros last_exc w; [constructor|].
  cbn [attempt_loop]. unfold bind, try_except, http_json.
  match goal with
  | |- context [send ?r w] => destruct (send r w) as [resp w1]
  end.
  destruct resp as [j|status|name]; cbn; [by repeat constructor| |].
  - specialize (IH (Some (HTTPError status)) w1).
    destruct (attempt_loop _ _ _ _ _ rest _ w1) as [[r2 tr2] w2].
    by repeat (constructor; [done|]).
  - specialize (IH (Some (RequestException name)) w1).
    destruct (attempt_loop _ _ _ _ _ rest _ w1) as [[r2 tr2] w2].
    by repeat (constructor; [done|]).
Qed.

Lemma mirror_loop_events mirrors q t mr : forall last_exc w,
  Forall client_event
    (mirror_loop (F:=F) send mirrors q t mr last_exc w).1.2.
Proof.
  induction mirrors as [|mirror rest IH]; intros last_exc w; [constructor|].
  cbn [mirror_loop]. unfold bind.
  pose proof (attempt_loop_events mirror q t mr (seqZ 1 mr) last_exc w) as H1.
  destruct (attempt_loop _ _ _ _ _ _ _ w) as [[r1 tr1] w1].
  destruct r1 as [[j|last_exc1]|e]; cbn in *.
  - by rewrite app_nil_r.
  - specialize (IH last_exc1 w1).
    destruct (mirror_loop _ rest _ _ _ _ w1) as [[r2 tr2] w2]. cbn in *.
    apply client_events_app; [done|]. by constructor.
  - done.
Qed.

Lemma query_events q t mr (w : World) :
  Forall client_event
    (query_overpass_with_mirrors (F:=F) send q t mr w).1.2.
Proof.
  unfold query_overpass_with_mirrors, bind.
  pose proof (mirror_loop_events OVERPASS_MIRRORS q t mr None w) as Hev.
  destruct (mirror_loop _ OVERPASS_MIRRORS _ _ _ _ w) as [[r tr] w'].
  destruct r as [[j|last_exc]|e]; cbn in *; by rewrite ?app_nil_r.
Qed.

(** The client prints no progress line of the tile loop. *)
Lemma client_events_no_tile (tr : list event) :
  Forall client_event tr -> tiles_of tr = [] /\ elems_of tr = [].
Proof.
  induction 1 as [|ev tr Hev _ [IH1 IH2]]; [done|].
  destruct ev as [? ?|[]|?|? ? ?|? ?]; try done.
Qed.

Lemma tiles_of_app (tr1 tr2 : list event) :
  tiles_of (tr1 ++ tr2) = tiles_of tr1 ++ tiles_of tr2.
Proof. apply omap_app. Qed.

Lemma elems_of_app (tr1 tr2 : list event) :
  elems_of (tr1 ++ tr2) = elems_of tr1 ++ elems_of tr2.
Proof. apply omap_app. Qed.

Lemma py_len_iter elems n :
  py_len elems = Val n -> exists more, py_iter elems = Val more.
Proof. destruct elems; try done; cbn; eauto. Qed.

Ltac read_literal f :=
  repeat match goal with
  | |- context [f ?l] =>
      lazymatch l with
      | [] => idtac
      | [_] => idtac
      end;
      let v := eval cbn in (f l) in progress change (f l) with v
  end.

Ltac read_events :=
  rewrite ?fetched_app, ?tiles_of_app, ?elems_of_app;
  read_literal (@fetched F); read_literal (@tiles_of F);
  read_literal (@elems_of F).

(** The loop over the tiles: what it returns and what it reports. *)
Lemma tile_loop_run template total tiles : forall all_elements failed_tiles w,
  let '(r, tr, _) :=
    tile_loop send template total tiles all_elements failed_tiles w in
  exists new,
    r = Val (all_elements ++ fetched tr, failed_tiles ++ new)
    /\ tiles_of tr = (fun it => ((it.1 + 1)%nat, total, it.2)) <$> tiles
    /\ (fun ft => (ft_idx ft, ft_bbox ft)) <$> new `sublist_of` tiles
    /\ (length (elems_of tr) + length new = length tiles)%nat.
Proof.
  induction tiles as [|[idx tb] rest IH]; intros all_elements failed_tiles w.
  - cbn. exists []. by rewrite !app_nil_r.
  - cbn [tile_loop]. unfold bind at 1. cbn [print emit].
    unfold bind at 1, try_except, bind at 1.
    pose proof (query_answers (format_bbox template 0 (bbox_str tb))
                  TIMEOUT_PER_REQUEST MAX_RETRIES w) as Hans.
    pose proof (query_events (format_bbox template 0 (bbox_str tb))
                  TIMEOUT_PER_REQUEST MAX_RETRIES w) as Hev.
    destruct (query_overpass_with_mirrors send _ _ _ w) as [[rq trq] wq].
    cbn in Hev. apply client_events_no_tile in Hev as [Hev1 Hev2].
    assert (Hfetched : fetched trq
                       = match rq with
                         | Val data => default [] (tile_elements data)
                         | Exc _ => []
                         end).
    { unfold fetched. rewrite Hans. destruct rq; cbn; by rewrite ?app_nil_r. }
    clear Hans.
    assert (Hfailed : forall e tr2 r2,
      default [] (match rq with
                  | Val data => tile_elements data
                  | Exc _ => None
                  end) = [] ->
      (exists new,
         r2 = Val (all_elements ++ fetched tr2,
                   (failed_tiles
                    ++ [{| ft_idx := idx; ft_bbox := tb; ft_error := e |}])
                   ++ new)
         /\ tiles_of tr2
            = (fun it => ((it.1 + 1)%nat, total, it.2)) <$> rest
         /\ (fun ft => (ft_idx ft, ft_bbox ft)) <$> new `sublist_of` rest
         /\ (length (elems_of tr2) + length new = length rest)%nat) ->
      let tr := [EvPrint (PTile (idx + 1) total tb)] ++ trq
                ++ [EvPrint (PTileFailed e)]
                ++ [EvSleep SLEEP_BETWEEN_TILES] ++ tr2 in
      exists new,
        r2 = Val (all_elements ++ fetched tr, failed_tiles ++ new)
        /\ tiles_of tr
           = (fun it => ((it.1 + 1)%nat, total, it.2)) <$> (idx, tb) :: rest
        /\ (fun ft => (ft_idx ft, ft_bbox ft)) <$> new
           `sublist_of` (idx, tb) :: rest
        /\ (length (elems_of tr) + length new
            = length ((idx, tb) :: rest))%nat).
    { intros e tr2 r2 Hnone (new & -> & Ht & Hs & Hc). cbv zeta.
      exists ({| ft_idx := idx; ft_bbox := tb; ft_error := e |} :: new).
      read_events. rewrite Hfetched, Hev1, Hev2, Ht.
      assert (Hq : match rq with
                   | Val data => default [] (tile_elements data)
                   | Exc _ => []
                   end = []) by (by destruct rq).
      rewrite Hq. cbn [app length fmap list_fmap fst snd].
      rewrite <- app_assoc. split; [done|]. split; [done|].
      split; [by apply sublist_skip|].
      cbn. lia. }
    destruct rq as [data|e].
    + unfold tile_elements in Hfetched, Hfailed.
      cbv beta iota zeta delta [bind lift print emit ret sleep].
      destruct (dict_get data "elements" (JArr [])) as [elems|e1];
        cbn [mbind res_bind] in Hfetched, Hfailed; cbv beta iota zeta.
      * destruct (py_len elems) as [n|e2] eqn:Hlen;
          cbn [mbind res_bind] in Hfetched, Hfailed; cbv beta iota zeta.
        -- destruct (py_len_iter elems n Hlen) as [more Hmore].
           rewrite Hmore in *. cbv beta iota zeta. cbn [fst snd].
           specialize (IH (all_elements ++ more) failed_tiles wq).
           destruct (tile_loop send template total rest _ _ wq)
             as [[r2 tr2] w2].
           destruct IH as (new & -> & Ht & Hs & Hc). exists new.
           read_events. rewrite Hfetched, Hev1, Hev2, Ht.
           cbn [default app length fmap list_fmap fst snd].
           rewrite !app_nil_r, <- app_assoc. split; [done|]. split; [done|].
           split; [by apply sublist_cons|]. cbn. lia.
        -- cbn [fst snd].
           specialize (IH all_elements
                         (failed_tiles
                          ++ [{| ft_idx := idx; ft_bbox := tb;
                                 ft_error := e2 |}]) wq).
           destruct (tile_loop send template total rest _ _ wq)
             as [[r2 tr2] w2].
           rewrite ?app_nil_l, ?app_nil_r, <- ?app_assoc.
           by apply (Hfailed e2 tr2 r2 eq_refl IH).
      * cbn [fst snd].
        specialize (IH all_elements
                      (failed_tiles
                       ++ [{| ft_idx := idx; ft_bbox := tb;
                              ft_error := e1 |}]) wq).
        destruct (tile_loop send template total rest _ _ wq)
          as [[r2 tr2] w2].
        rewrite ?app_nil_l, ?app_nil_r, <- ?app_assoc.
        by apply (Hfailed e1 tr2 r2 eq_refl IH).
    + cbv beta iota zeta delta [bind lift print emit ret sleep].
      cbn [fst snd].
      specialize (IH all_elements
                    (failed_tiles
                     ++ [{| ft_idx := idx; ft_bbox := tb;
                            ft_error := e |}]) wq).
      destruct (tile_loop send template total rest _ _ wq)
        as [[r2 tr2] w2].
      rewrite ?app_nil_l, ?app_nil_r, <- ?app_assoc.
      by apply (Hfailed e tr2 r2 eq_refl IH).
Qed.

(** X9: the tile loop never raises and never drops a tile: every tile is
    started, in order; each one either reports its element count or is
    appended to the failed tiles, in order; and the elements returned are
    those of the answered queries, in order, after the ones already held. *)
Theorem tile_loop_partial_failure template total tiles all_elements
    failed_tiles (w : World) :
  let '(r, tr, _) :=
    tile_loop send template total tiles all_elements failed_tiles w in
  exists new,
    r = Val (all_elements ++ fetched tr, failed_tiles ++ new)
    /\ tiles_of tr = (fun it => ((it.1 + 1)%nat, total, it.2)) <$> tiles
    /\ (fun ft => (ft_idx ft, ft_bbox ft)) <$> new `sublist_of` tiles
    /\ (length (elems_of tr) + length new = length tiles)%nat.
Proof. apply tile_loop_run. Qed.

Lemma dict_get_exn d k dflt e : dict_get d k dflt = Exc e -> e = AttributeError.
Proof. destruct d; cbn; congruence. Qed.

Lemma element_key_exn el e :
  element_key el = Exc e -> e = AttributeError \/ e = TypeError.
Proof.
  unfold element_key.
  destruct (dict_get el "type" JNull) as [t|e1] eqn:Ht; cbn;
    [|intros [= <-]; left; by eapply dict_get_exn].
  destruct (dict_get el "id" JNull) as [i|e1] eqn:Hi; cbn;
    [|intros [= <-]; left; by eapply dict_get_exn].
  destruct t, i; cbn; intros [= <-]; by right.
Qed.

Lemma dedupe_loop_exn elems : forall seen out e,
  dedupe_loop elems seen out = Exc e -> e = AttributeError \/ e = TypeError.
Proof.
  induction elems as [|el rest IH]; intros seen out e; cbn; [done|].
  destruct (element_key el) as [key|e1] eqn:Hk; cbn.
  - case_bool_decide; apply IH.
  - intros [= <-]. by eapply element_key_exn.
Qed.

Lemma or_else_exn a b e :
  or_else a b = Exc e -> a = Exc e \/ b = Exc e.
Proof.
  unfold or_else. destruct a as [v|e1]; cbn; [|by left].
  destruct (truthy v); [done|by right].
Qed.

Lemma addr_loop_exn tags keys : forall acc e,
  addr_loop tags keys acc = Exc e -> e = AttributeError.
Proof.
  induction keys as [|k keys IH]; intros acc e; cbn; [done|].
  destruct (dict_get tags k JNull) as [v|e1] eqn:Hv; cbn.
  - destruct (truthy v); apply IH.
  - intros [= <-]. by eapply dict_get_exn.
Qed.

Lemma str_join_exn sep parts e : str_join sep parts = Exc e -> e = TypeError.
Proof.
  unfold str_join.
  assert (Hs : forall e, as_strs parts = Exc e -> e = TypeError).
  { induction parts as [|p parts IH]; cbn; [done|]. intros e0.
    destruct p; try by intros [= <-].
    destruct (as_strs parts); cbn; [done|]. intros [= <-]. by apply IH. }
  destruct (as_strs parts); cbn; [done|]. intros [= <-]. by apply Hs.
Qed.

Lemma chain_exn tags (l : list string) (e : exn) :
  foldr (fun k rest => or_else (dict_get tags k JNull) rest)
    (Val (JStr "")) l = Exc e ->
  e = AttributeError.
Proof.
  induction l as [|k l IH]; cbn; [done|].
  intros [Hk|Hr]%or_else_exn; [by eapply dict_get_exn|by apply IH].
Qed.

Lemma extract_shop_record_exn el city_name e :
  extract_shop_record el city_name = Exc e ->
  e = AttributeError \/ e = TypeError.
Proof.
  unfold extract_shop_record.
  destruct (dict_get el "tags" (JObj ∅)) as [t0|e0] eqn:H0; cbn [mbind res_bind];
    [|intros [= <-]; left; by eapply dict_get_exn].
  cbv zeta. set (tags := if truthy t0 then t0 else JObj ∅).
  destruct (dict_get tags "name" (JStr "")) as [name|e1] eqn:H1;
    cbn [mbind res_bind]; [|intros [= <-]; left; by eapply dict_get_exn].
  destruct (or_else (dict_get tags "contact:phone" JNull) _)
    as [phone|e2] eqn:H2; cbn [mbind res_bind];
    [|intros [= <-]; left;
      by apply (chain_exn tags ["contact:phone"; "phone"; "telephone"])].
  destruct (or_else (dict_get tags "contact:email" JNull) _)
    as [email|e3] eqn:H3; cbn [mbind res_bind];
    [|intros [= <-]; left;
      by apply (chain_exn tags ["contact:email"; "email"])].
  destruct (or_else (dict_get tags "website" JNull) _)
    as [website|e4] eqn:H4; cbn [mbind res_bind];
    [|intros [= <-]; left;
      by apply (chain_exn tags ["website"; "contact:website"])].
  destruct (addr_loop tags addr_keys []) as [parts|e5] eqn:H5;
    cbn [mbind res_bind]; [|intros [= <-]; left; by eapply addr_loop_exn].
  destruct (negb (length parts =? 0)%nat).
  - destruct (str_join ", " parts) as [joined|e6] eqn:H6; cbn [mbind res_bind];
      [|intros [= <-]; right; by eapply str_join_exn].
    destruct (dict_get el "type" JNull) eqn:H7; cbn [mbind res_bind];
      [|intros [= <-]; left; by eapply dict_get_exn].
    destruct (dict_get el "id" JNull) eqn:H8; cbn [mbind res_bind];
      [done|intros [= <-]; left; by eapply dict_get_exn].
  - destruct (or_else (dict_get tags "addr:full" JNull) _)
      as [full|e6] eqn:H6; cbn [mbind res_bind];
      [|intros [= <-]; left; by apply (chain_exn tags ["addr:full"])].
    destruct (dict_get el "type" JNull) eqn:H7; cbn [mbind res_bind];
      [|intros [= <-]; left; by eapply dict_get_exn].
    destruct (dict_get el "id" JNull) eqn:H8; cbn [mbind res_bind];
      [done|intros [= <-]; left; by eapply dict_get_exn].
Qed.

Lemma extract_all_exn elements city_name e :
  extract_all elements city_name = Exc e ->
  e = AttributeError \/ e = TypeError.
Proof.
  induction elements as [|el rest IH]; cbn; [done|].
  destruct (extract_shop_record el city_name) eqn:Hel; cbn;
    [|intros [= <-]; by eapply extract_shop_record_exn].
  destruct (extract_all rest city_name); cbn; [done|].
  intros [= <-]. by apply IH.
Qed.

Lemma nominatim_trace city_name email timeout (w : World) :
  exists resp,
    (nominatim_bbox send city_name email timeout w).1.2
    = [EvRequest (nominatim_request city_name email timeout) resp].
Proof.
  unfold nominatim_bbox, bind, http_json.
  destruct (send (nominatim_request city_name email timeout) w)
    as [resp w1].
  exists resp. destruct resp as [j|status|name]; [|done..].
  destruct (negb (truthy j)); [done|].
  unfold lift, ret.
  repeat match goal with
  | |- context [match ?x with Val _ => _ | Exc _ => _ end] =>
      destruct x; cbv beta iota zeta
  end; by rewrite ?app_nil_r.
Qed.

(** The [try] block around the resolver never raises, and asks no mirror. *)
Lemma resolve_run city_name (w : World) :
  exists resolved tr w',
    resolve send city_name w = (Val resolved, tr, w')
    /\ Forall fetch_event tr /\ answers_of tr = [].
Proof.
  pose proof (quiet_resolve send city_name w) as Hq.
  unfold resolve, try_except, bind in *.
  destruct (nominatim_trace city_name None 10 w) as [resp Htr].
  destruct (nominatim_bbox send city_name None 10 w) as [[r tr] w1].
  cbn in Htr. subst tr.
  destruct r as [[[[[[s w0] n] e] display]|]|e];
    cbv beta iota zeta delta [print emit ret raise] in *;
    (do 3 eexists; split; [reflexivity|]; split; [exact Hq|]);
    by destruct resp.
Qed.

Lemma tabled_quiet city_name (tr : list event) (w : World) :
  Forall fetch_event tr -> tabled city_name (Val tt, tr, w).
Proof.
  intros Hq. destruct (fetch_events_write_nothing tr Hq) as (Hcsv & _).
  split; [|done]. intros path records Hin. rewrite Hcsv in Hin.
  by inversion Hin.
Qed.

Lemma tabled_bind {A} city_name (m : M A) (f : A -> M unit) w a
    (tr : list event) w1 :
  m w = (Val a, tr, w1) ->
  Forall fetch_event tr -> answers_of tr = [] ->
  tabled city_name (f a w1) -> tabled city_name (bind m f w).
Proof.
  intros Hm Hq Hans Ht. unfold bind. rewrite Hm.
  destruct (f a w1) as [[r tr'] w2].
  destruct (fetch_events_write_nothing tr Hq) as (Hcsv & _).
  unfold tabled, fetched, csv_writes in *.
  rewrite answers_of_app, omap_app, Hans, Hcsv. exact Ht.
Qed.

Lemma process_city_tabled city_name (w : World) :
  tabled city_name (process_city send path_exists city_name w).
Proof.
  unfold process_city. fold (out_path city_name). fold (debug_path city_name).
  eapply tabled_bind; [reflexivity|constructor|done|].
  destruct (path_exists (out_path city_name) w && negb FORCE_REWRITE);
    [apply tabled_quiet; by repeat constructor|].
  eapply tabled_bind; [reflexivity|by repeat constructor|done|].
  destruct (resolve_run city_name w) as (resolved & tr & w1 & Hres & Hq & Ha).
  eapply tabled_bind; [exact Hres|exact Hq|exact Ha|].
  destruct resolved as [[[[south west] north] east]|];
    [|apply tabled_quiet; constructor].
  eapply tabled_bind;
    [unfold lift; rewrite split_bbox_rows by done; reflexivity
    |constructor|done|].
  set (tiles := mjoin (grid _ _ _ _ TILE_NX TILE_NY)).
  pose proof (tile_loop_run build_overpass_template (length tiles)
                (imap (fun idx tb => (idx, tb)) tiles) [] [] w1) as Hloop.
  pose proof (quiet_tile_loop send build_overpass_template (length tiles)
                (imap (fun idx tb => (idx, tb)) tiles) [] [] w1) as Hquiet.
  unfold bind at 1.
  destruct (tile_loop send _ _ _ [] [] w1) as [[r2 tr2] w2].
  destruct Hloop as (new & -> & _). cbn in Hquiet. cbn [app].
  destruct (fetch_events_write_nothing tr2 Hquiet) as (Hcsv & _).
  unfold bind, lift, print, emit, ret.
  destruct (dedupe_elements (fetched tr2)) as [elements|e] eqn:Hdedupe.
  - destruct (extract_all elements city_name) as [records|e] eqn:Hrec.
    + destruct records as [|record records].
      * rewrite bool_decide_eq_true_2 by done.
        unfold tabled, fetched, csv_writes in *.
        rewrite answers_of_app, !omap_app, Hcsv. cbn. split; [|done].
        intros ? ? Hin. by inversion Hin.
      * rewrite bool_decide_eq_false_2 by done.
        unfold tabled, fetched, csv_writes in *.
        rewrite answers_of_app, !omap_app, Hcsv. cbn.
        rewrite !app_nil_r. split; [|done].
        intros path recs Hin. apply list_elem_of_singleton in Hin.
        injection Hin as -> ->. repeat split; try done.
        exists elements. by rewrite Hdedupe.
    + unfold tabled, fetched, csv_writes in *.
      rewrite answers_of_app, !omap_app, Hcsv. cbn. rewrite !app_nil_r. split.
      * intros ? ? Hin. by inversion Hin.
      * intros e0 [= <-]. split; [by eapply extract_all_exn|].
        right. exists elements. by rewrite Hdedupe.
  - unfold tabled, fetched, csv_writes in *.
    rewrite app_nil_r, Hcsv. split.
    + intros ? ? Hin. by inversion Hin.
    + intros e0 [= <-]. split; [by eapply dedupe_loop_exn|].
      left. exact Hdedupe.
Qed.

(** X10: the table a region gets holds one normalized record for each
    identity among the elements of the answered tile queries, in the order
    of the first sightings: the run wrote one table, to its own path, it is
    not empty, and its records are the normalization of the deduplicated
    fetched elements. *)
Theorem process_city_table city_name (w : World) :
  let '(r, tr, _) := process_city send path_exists city_name w in
  forall path records, (path, records) ∈ csv_writes tr ->
    r = Val tt
    /\ csv_writes tr = [(out_path city_name, records)]
    /\ path = out_path city_name
    /\ records <> []
    /\ exists elements,
        dedupe_elements (fetched tr) = Val elements
        /\ extract_all elements city_name = Val records.
Proof.
  pose proof (process_city_tabled city_name w) as Ht.
  destruct (process_city send path_exists city_name w) as [[r tr] w'].
  apply Ht.
Qed.

(** X11: no failure of the network escapes a region: [process_city] raises
    only AttributeError or TypeError, and only because deduplicating or
    normalizing the fetched elements raised it (an element that is no
    dictionary, an identity that cannot be hashed, a tag that is no
    string). *)
Theorem process_city_raises city_name (w : World) :
  let '(r, tr, _) := process_city send path_exists city_name w in
  forall e, r = Exc e ->
    (e = AttributeError \/ e = TypeError)
    /\ (dedupe_elements (fetched tr) = Exc e
        \/ exists elements,
            dedupe_elements (fetched tr) = Val elements
            /\ extract_all elements city_name = Exc e).
Proof.
  pose proof (process_city_tabled city_name w) as Ht.
  destruct (process_city send path_exists city_name w) as [[r tr] w'].
  apply Ht.
Qed.

End TileLoop.

(** ** [dedupe_elements]: fixed points *)

Section AggregatorMore.

Implicit Types (elems out : list json) (seen : gset (hkey * hkey)).

Lemma dedupe_loop_distinct elems : forall ks seen out,
  identities elems ks -> NoDup ks -> (forall k, k ∈ ks -> k ∉ seen) ->
  dedupe_loop elems seen out = Val (out ++ elems).
Proof.
  induction elems as [|el rest IH]; intros ks seen out Hks Hnd Hseen.
  - cbn. by rewrite app_nil_r.
  - apply Forall2_cons_inv_l in Hks as (k & ks' & Hk & Hks' & ->).
    apply NoDup_cons in Hnd as [Hnotin Hnd].
    cbn [dedupe_loop]. rewrite Hk. cbn [mbind res_bind].
    rewrite bool_decide_eq_false_2 by (apply Hseen; by left).
    rewrite (IH ks' ({[k]} ∪ seen) (out ++ [el]) Hks' Hnd).
    + by rewrite <- app_assoc.
    + intros k' Hin. rewrite elem_of_union, elem_of_singleton.
      intros [->|Hs]; [done|]. apply (Hseen k'); [by right|done].
Qed.

(** What comes out of the loop has pairwise different identities, none of
    them seen before, and is a sublist of what went in. *)
Lemma dedupe_loop_keys elems : forall seen out result,
  dedupe_loop elems seen out = Val result ->
  exists kept ks,
    result = out ++ kept
    /\ identities kept ks /\ NoDup ks /\ (forall k, k ∈ ks -> k ∉ seen)
    /\ kept `sublist_of` elems.
Proof.
  induction elems as [|el rest IH]; intros seen out result; cbn.
  - intros [= <-]. exists [], []. rewrite app_nil_r.
    repeat split; try constructor. intros k Hk. by inversion Hk.
  - destruct (element_key el) as [k|e] eqn:Hk; cbn; [|done].
    case_bool_decide as Hin; intros Hrun.
    + destruct (IH _ _ _ Hrun) as (kept & ks & -> & Hks & Hnd & Hs & Hsub).
      exists kept, ks. repeat split; try done. by apply sublist_cons.
    + destruct (IH _ _ _ Hrun) as (kept & ks & -> & Hks & Hnd & Hs & Hsub).
      exists (el :: kept), (k :: ks). split; [by rewrite <- app_assoc|].
      split; [by constructor|]. split; [|split].
      * apply NoDup_cons. split; [|done]. intros Hk'. apply (Hs k Hk').
        set_solver.
      * intros k' [->|Hk']%elem_of_cons; [done|].
        intros Hseen. apply (Hs k' Hk'). set_solver.
      * by apply sublist_skip.
Qed.

(** X12: a list whose elements have pairwise different identities is
    returned unchanged. *)
Theorem dedupe_elements_distinct elems ks :
  identities elems ks -> NoDup ks -> dedupe_elements elems = Val elems.
Proof.
  intros Hks Hnd. unfold dedupe_elements.
  rewrite (dedupe_loop_distinct elems ks ∅ [] Hks Hnd); [done|].
  intros k _. set_solver.
Qed.

(** X13: deduplication is idempotent, and its result is a sublist of its
    input: it only drops elements, it never reorders or changes one. *)
Theorem dedupe_elements_idempotent elems out :
  dedupe_elements elems = Val out ->
  dedupe_elements out = Val out /\ out `sublist_of` elems.
Proof.
  intros Hrun. unfold dedupe_elements in *.
  destruct (dedupe_loop_keys elems ∅ [] out Hrun)
    as (kept & ks & -> & Hks & Hnd & _ & Hsub).
  cbn [app]. split; [|done].
  rewrite (dedupe_loop_distinct kept ks ∅ [] Hks Hnd); [done|].
  intros k _. set_solver.
Qed.

End AggregatorMore.

Lemma dedupe_elements_distinct_witness :
  dedupe_elements [shop_first; shop_other] = Val [shop_first; shop_other].
Proof.
  apply (dedupe_elements_distinct [shop_first; shop_other]
           [(HStr "node", HNum 555); (HStr "way", HNum 555)]).
  - repeat constructor.
  - apply NoDup_cons. split; [|apply NoDup_singleton].
    intros Hin. apply list_elem_of_singleton in Hin. discriminate Hin.
Defined.

Lemma dedupe_elements_idempotent_witness :
  dedupe_elements [shop_first; shop_other] = Val [shop_first; shop_other]
  /\ [shop_first; shop_other] `sublist_of` [shop_first; shop_other; shop_again].
Proof.
  apply (dedupe_elements_idempotent [shop_first; shop_other; shop_again]).
  vm_compute. reflexivity.
Defined.

(** ** [split_bbox]: edges and extents *)

(** X14: in any arithmetic, neighbouring tiles share their common edge
    exactly: the north edge of tile (i,j) is the south edge of tile (i+1,j)
    and the east edge of tile (i,j) is the west edge of tile (i,j+1), so
    rounding opens no gap between tiles; the tiles of a row have the same
    south and north, those of a column the same west and east. *)
Theorem split_bbox_shared_edges {F : Type} `{PyFloat F}
    (bbox : F * F * F * F) (nx ny : Z) (tiles : list (F * F * F * F)) :
  split_bbox bbox nx ny = Val tiles ->
  (forall i j s w n e s' w' n' e',
     0 <= i -> i + 1 < ny -> 0 <= j < nx ->
     tiles !! Z.to_nat (i * nx + j) = Some (s, w, n, e) ->
     tiles !! Z.to_nat ((i + 1) * nx + j) = Some (s', w', n', e') ->
     n = s' /\ w = w' /\ e = e')
  /\ (forall i j s w n e s' w' n' e',
      0 <= i < ny -> 0 <= j -> j + 1 < nx ->
      tiles !! Z.to_nat (i * nx + j) = Some (s, w, n, e) ->
      tiles !! Z.to_nat (i * nx + (j + 1)) = Some (s', w', n', e') ->
      e = w' /\ s = s' /\ n = n').
Proof.
  destruct bbox as [[[south west] north] east]. intros Hrun.
  assert (Hnz : nx <> 0 /\ ny <> 0).
  { unfold split_bbox, truediv in Hrun.
    destruct (Z.eqb_spec ny 0); [done|]. destruct (Z.eqb_spec nx 0); [done|].
    done. }
  rewrite split_bbox_rows in Hrun by apply Hnz. injection Hrun as <-.
  assert (Hat : forall i j t, 0 <= i < ny -> 0 <= j < nx ->
            mjoin (grid south west (fdiv (fsub north south) (of_int ny))
                     (fdiv (fsub east west) (of_int nx)) nx ny)
              !! Z.to_nat (i * nx + j) = Some t ->
            t = tile south west (fdiv (fsub north south) (of_int ny))
                  (fdiv (fsub east west) (of_int nx)) i j).
  { intros i j t Hi Hj Ht.
    assert (Hthere : mjoin (grid south west
                              (fdiv (fsub north south) (of_int ny))
                              (fdiv (fsub east west) (of_int nx)) nx ny)
                       !! Z.to_nat (i * nx + j)
                     = Some (tile south west
                               (fdiv (fsub north south) (of_int ny))
                               (fdiv (fsub east west) (of_int nx)) i j))
      by (apply grid_lookup; by exists i, j).
    congruence. }
  split.
  - intros i j s w n e s' w' n' e' Hi Hi' Hj H1 H2.
    apply Hat in H1; [|lia..]. apply Hat in H2; [|lia..].
    unfold tile in H1, H2. by simplify_eq.
  - intros i j s w n e s' w' n' e' Hi Hj Hj' H1 H2.
    apply Hat in H1; [|lia..]. apply Hat in H2; [|lia..].
    unfold tile in H1, H2. by simplify_eq.
Qed.

Lemma split_bbox_shared_edges_witness :
  exists tiles,
    split_bbox qom_bbox 2 2 = Val tiles
    /\ forall s w n e s' w' n' e',
         tiles !! 0%nat = Some (s, w, n, e) ->
         tiles !! 2%nat = Some (s', w', n', e') ->
         n = s' /\ w = w' /\ e = e'.
Proof.
  eexists. split; [reflexivity|].
  intros s w n e s' w' n' e' H1 H2.
  exact (proj1 (split_bbox_shared_edges qom_bbox 2 2 _ eq_refl)
           0 0 s w n e s' w' n' e' ltac:(lia) ltac:(lia) ltac:(lia) H1 H2).
Defined.

(** X15: in exact arithmetic, for a box with south < north and west < east
    and dimensions nx, ny >= 1, every tile is itself a box with
    south < north and west < east, and all tiles have the same extent,
    lat_step by lon_step. *)
Theorem split_bbox_tiles_are_boxes (south west north east : Q) (nx ny : Z)
    (tiles : list (Q * Q * Q * Q)) :
  (south < north)%Q -> (west < east)%Q -> 1 <= nx -> 1 <= ny ->
  split_bbox (south, west, north, east) nx ny = Val tiles ->
  Forall (fun t : Q * Q * Q * Q =>
            let '(s, w, n, e) := t in
            (s < n /\ w < e
             /\ n - s == (north - south) / inject_Z ny
             /\ e - w == (east - west) / inject_Z nx)%Q) tiles.
Proof.
  intros Hlat Hlon Hnx Hny. rewrite split_bbox_rows by lia. intros [= <-].
  apply Forall_forall. intros t Ht. apply list_elem_of_lookup in Ht as [a Ha].
  apply grid_lookup in Ha as (i & j & Hi & Hj & _ & ->).
  pose proof (step_pos south north ny Hlat Hny) as Hp1.
  pose proof (step_pos west east nx Hlon Hnx) as Hp2.
  cbn [tile fadd fsub fmul fdiv of_int Q_float].
  rewrite !inject_Z_plus. cbn [inject_Z].
  set (la := ((north - south) / inject_Z ny)%Q) in *.
  set (lo := ((east - west) / inject_Z nx)%Q) in *.
  assert (Hla : ((inject_Z i + 1) * la == inject_Z i * la + la)%Q) by ring.
  assert (Hlo : ((inject_Z j + 1) * lo == inject_Z j * lo + lo)%Q) by ring.
  change (inject_Z 1) with 1%Q.
  repeat split.
  - rewrite Hla. lra.
  - rewrite Hlo. lra.
  - ring.
  - ring.
Qed.

Lemma split_bbox_tiles_are_boxes_witness :
  Forall (fun t : Q * Q * Q * Q =>
            let '(s, w, n, e) := t in
            (s < n /\ w < e
             /\ n - s == ((347 # 10) - (345 # 10)) / inject_Z 1
             /\ e - w == ((509 # 10) - (507 # 10)) / inject_Z 1)%Q)
    [tile (345 # 10)%Q (507 # 10)%Q
       (((347 # 10) - (345 # 10)) / inject_Z 1)%Q
       (((509 # 10) - (507 # 10)) / inject_Z 1)%Q 0 0].
Proof.
  apply (split_bbox_tiles_are_boxes (345 # 10)%Q (507 # 10)%Q
           (347 # 10)%Q (509 # 10)%Q 1 1);
    first [lia | reflexivity | (unfold Qlt; cbn; lia)].
Defined.

(** ** [extract_shop_record]: tags of any type *)

Section NormalizerMore.

Implicit Types (m t : gmap string json).

Lemma or_else_get t k (rest : res json) :
  or_else (dict_get (JObj t) k JNull) rest
  = if truthy (default JNull (t !! k)) then Val (default JNull (t !! k))
    else rest.
Proof. reflexivity. Qed.

Lemma addr_loop_any t keys : forall acc,
  addr_loop (JObj t) keys acc = Val (acc ++ truthy_values keys t).
Proof.
  induction keys as [|k keys IH]; intros acc; cbn.
  - by rewrite app_nil_r.
  - destruct (truthy (default JNull (t !! k))); [|apply IH].
    rewrite IH. by rewrite <- app_assoc.
Qed.

Lemma tags_or_empty_any m t :
  m !! "tags" = Some (JObj t) ->
  (if truthy (default (JObj ∅) (m !! "tags"))
   then default (JObj ∅) (m !! "tags") else JObj ∅) = JObj t.
Proof.
  intros ->. cbn. destruct (Nat.eqb (size t) 0) eqn:E; cbn; [|done].
  apply Nat.eqb_eq, map_size_empty_iff in E. by rewrite E.
Qed.

Lemma as_strs_not_string (before : list string) v after :
  (forall s, v <> JStr s) ->
  as_strs ((JStr <$> before) ++ v :: after) = Exc TypeError.
Proof.
  intros Hv. induction before as [|s before IH]; cbn.
  - destruct v; try done. by destruct (Hv s).
  - by rewrite IH.
Qed.

(** The code's result for a dictionary of tags of any type. *)
Lemma extract_shop_record_any m t city_name :
  m !! "tags" = Some (JObj t) ->
  extract_shop_record (JObj m) city_name
  = address ← (if negb (Nat.eqb (length (truthy_values addr_keys t)) 0)
               then s ← str_join ", " (truthy_values addr_keys t);
                    Val (JStr s)
               else Val (first_truthy ["addr:full"] t));
    Val (record_of city_name m t address).
Proof.
  intros Ht. unfold extract_shop_record.
  cbn [dict_get mbind res_bind]. cbv zeta.
  rewrite (tags_or_empty_any m t Ht). rewrite !or_else_get.
  rewrite (addr_loop_any t addr_keys []). cbn [app dict_get mbind res_bind].
  unfold record_of. cbn [first_truthy].
  destruct (negb (Nat.eqb (length (truthy_values addr_keys t)) 0)).
  - destruct (str_join ", " (truthy_values addr_keys t)); cbn [mbind res_bind];
    by repeat (match goal with
               | |- context [if truthy ?v then _ else _] =>
                   destruct (truthy v)
               end; cbn [mbind res_bind]).
  - by repeat (match goal with
               | |- context [if truthy ?v then _ else _] =>
                   destruct (truthy v)
               end; cbn [mbind res_bind]).
Qed.

(** X16: for a dictionary of tags with values of any JSON type, every
    field is the first truthy value of its chain, passed through as it is
    (name is the raw name tag, null included).  With no truthy address part
    the address is the first truthy of addr:full; with address parts that
    are all strings it is their ", "-join; and one truthy address part that
    is not a string makes the function raise TypeError. *)
Theorem extract_shop_record_any_tags m t city_name :
  m !! "tags" = Some (JObj t) ->
  (truthy_values addr_keys t = [] ->
   extract_shop_record (JObj m) city_name
   = Val (record_of city_name m t (first_truthy ["addr:full"] t)))
  /\ (forall parts : list string,
      parts <> [] -> truthy_values addr_keys t = JStr <$> parts ->
      extract_shop_record (JObj m) city_name
      = Val (record_of city_name m t (JStr (String.concat ", " parts))))
  /\ (forall (before : list string) v after,
      truthy_values addr_keys t = (JStr <$> before) ++ v :: after ->
      (forall s, v <> JStr s) ->
      extract_shop_record (JObj m) city_name = Exc TypeError).
Proof.
  intros Ht. rewrite (extract_shop_record_any m t city_name Ht).
  split; [|split].
  - intros ->. reflexivity.
  - intros parts Hne ->. rewrite length_fmap.
    destruct parts as [|p parts]; [done|]. cbn [length Nat.eqb negb].
    unfold str_join. change (JStr <$> p :: parts) with (JStr <$> (p :: parts)).
    by rewrite as_strs_strings.
  - intros before v after -> Hv. rewrite length_app. cbn [length].
    rewrite Nat.add_succ_r. cbn [Nat.eqb negb]. unfold str_join.
    by rewrite as_strs_not_string.
Qed.

(** X17: anything but a dictionary where a dictionary is expected raises
    AttributeError: an element that is no dictionary, and a truthy tags
    entry that is no dictionary. *)
Theorem extract_shop_record_not_a_dict (el : json) city_name :
  ((forall m, el <> JObj m) ->
   extract_shop_record el city_name = Exc AttributeError)
  /\ (forall m tags,
      el = JObj m -> m !! "tags" = Some tags -> truthy tags = true ->
      (forall t, tags <> JObj t) ->
      extract_shop_record el city_name = Exc AttributeError).
Proof.
  split.
  - intros Hel. destruct el; try done. by destruct (Hel m).
  - intros m tags -> Htags Htruthy Hnot. unfold extract_shop_record.
    cbn [dict_get mbind res_bind]. cbv zeta. rewrite Htags.
    change (default (JObj ∅) (Some tags)) with tags. rewrite Htruthy.
    destruct tags; try done. by destruct (Hnot m0).
Qed.

End NormalizerMore.

Lemma extract_shop_record_any_tags_witness :
  extract_shop_record (JObj (<["tags" := JObj odd_tags]> ∅)) "Qom"
  = Val [("city", JStr "Qom"); ("osm_type", JNull); ("osm_id", JNull);
         ("name", JNull); ("address", JStr ""); ("phone", JInt 123);
         ("email", JStr ""); ("website", JStr "")].
Proof.
  exact (proj1 (extract_shop_record_any_tags (<["tags" := JObj odd_tags]> ∅)
                  odd_tags "Qom" eq_refl) eq_refl).
Defined.

Lemma extract_shop_record_not_a_dict_witness :
  extract_shop_record (JArr []) "Qom" = Exc AttributeError.
Proof.
  apply (proj1 (extract_shop_record_not_a_dict (JArr []) "Qom")).
  intros m Hm. discriminate Hm.
Defined.

(** ** [load_cities] *)

Section LoadCitiesProps.

Context {World : Type}.
Variable path_exists : string -> World -> bool.
Variable read_lines : string -> World -> list string.

Lemma strip_trimmed (s : string) :
  trimmed (String.list_ascii_of_string (strip s)).
Proof. unfold strip. rewrite chars_of_chars. apply strip_chars_trimmed. Qed.

(** X18: [load_cities] returns a list only when the file exists and has a
    line that is not blank: then the list is not empty and holds the
    stripped non-blank lines, in order, each of them non-empty and without
    whitespace at either end.  Otherwise it raises NameError: the default
    list it falls back on, DEFAULT_CITIES, is not defined. *)
Theorem load_cities_result (file_path : string) (w : World) :
  match load_cities path_exists read_lines file_path w with
  | inr cities =>
      path_exists file_path w = true
      /\ cities <> []
      /\ cities = strip <$> filter (fun line => strip line <> "")
                              (read_lines file_path w)
      /\ Forall (fun city =>
                   city <> ""
                   /\ trimmed (String.list_ascii_of_string city)) cities
  | inl e =>
      e = NameError "DEFAULT_CITIES"
      /\ (path_exists file_path w = false
          \/ Forall (fun line => strip line = "") (read_lines file_path w))
  end.
Proof.
  unfold load_cities. destruct (path_exists file_path w); [|by split; [|left]].
  case_bool_decide as Hnil.
  - split; [done|]. right. apply fmap_nil_inv in Hnil.
    apply Forall_forall. intros line Hin.
    destruct (decide (strip line = "")) as [|Hne]; [done|].
    assert (Hfil : line ∈ filter (fun line => strip line <> "")
                           (read_lines file_path w))
      by by apply list_elem_of_filter.
    rewrite Hnil in Hfil. by inversion Hfil.
  - repeat split; try done. apply Forall_fmap, Forall_forall.
    intros line Hin%list_elem_of_filter. cbn. split; [tauto|].
    apply strip_trimmed.
Qed.

End LoadCitiesProps.

Example load_cities_strips :
  load_cities (fun _ _ => true) cities_file CITIES_FILE tt
  = inr ["Tehran"; "Qom"].
Proof. vm_compute. reflexivity. Qed.

(** Without the file the fall-back is reached, and it is not defined. *)
Example load_cities_no_file :
  load_cities (fun _ _ => false) cities_file CITIES_FILE tt
  = inl (NameError "DEFAULT_CITIES").
Proof. reflexivity. Qed.

(** ** Runs of [process_city] on sample worlds *)

Lemma process_city_table_witness :
  let '(r, tr, _) := process_city (F:=Q) one_shop_world no_file "Qom" 0%nat in
  r = Val tt
  /\ csv_writes tr
     = [(out_path "Qom",
         [[("city", JStr "Qom"); ("osm_type", JStr "node");
           ("osm_id", JInt 555); ("name", JStr "Bakery");
           ("address", JStr ""); ("phone", JStr ""); ("email", JStr "");
           ("website", JStr "")]])]
  /\ exists elements,
      dedupe_elements (fetched tr) = Val elements
      /\ length (fetched tr) = 72%nat
      /\ length elements = 1%nat.
Proof.
  pose proof (process_city_table (F:=Q) one_shop_world no_file "Qom" 0%nat)
    as Ht.
  assert (Hcsv : csv_writes
                   (process_city (F:=Q) one_shop_world no_file "Qom"
                      0%nat).1.2
                 = [(out_path "Qom",
                     [[("city", JStr "Qom"); ("osm_type", JStr "node");
                       ("osm_id", JInt 555); ("name", JStr "Bakery");
                       ("address", JStr ""); ("phone", JStr "");
                       ("email", JStr ""); ("website", JStr "")]])])
    by (vm_compute; reflexivity).
  assert (Hlen : length (fetched
                           (process_city (F:=Q) one_shop_world no_file "Qom"
                              0%nat).1.2) = 72%nat)
    by (vm_compute; reflexivity).
  destruct (process_city one_shop_world no_file "Qom" 0%nat) as [[r tr] w'].
  cbn [fst snd] in Hcsv, Hlen.
  destruct (Ht (out_path "Qom") _ ltac:(rewrite Hcsv; by left))
    as (Hr & _ & _ & _ & elements & Hd & Hx).
  split; [exact Hr|]. split; [exact Hcsv|].
  exists elements. split; [exact Hd|]. split; [exact Hlen|].
  apply extract_all_length in Hx. cbn in Hx. by rewrite <- Hx.
Defined.

Lemma process_city_raises_witness :
  let '(r, tr, _) := process_city (F:=Q) odd_item_world no_file "Qom" 0%nat in
  r = Exc AttributeError
  /\ (dedupe_elements (fetched tr) = Exc AttributeError
      \/ exists elements,
          dedupe_elements (fetched tr) = Val elements
          /\ extract_all elements "Qom" = Exc AttributeError).
Proof.
  pose proof (process_city_raises (F:=Q) odd_item_world no_file "Qom" 0%nat)
    as Ht.
  assert (Hr : (process_city (F:=Q) odd_item_world no_file "Qom" 0%nat).1.1
               = Exc AttributeError) by (vm_compute; reflexivity).
  destruct (process_city odd_item_world no_file "Qom" 0%nat) as [[r tr] w'].
  cbn [fst snd] in Hr. split; [exact Hr|].
  exact (proj2 (Ht _ Hr)).
Defined.

(** ** What a region sends *)

Section RegionRequests.

Context {F : Type} `{PyFloat F} {World : Type}.
Variable send : request -> World -> response * World.
Variable path_exists : string -> World -> bool.
Variable P : @event F -> Prop.

#[local] Notation "'event'" := (@event F).
#[local] Notation "'M'" := (@M F World).
#[local] Notation "'only'" := (@only_run F World P _).









(** From here on, [P] holds of every event that is no request. *)
Hypothesis P_print : forall p, P (EvPrint p).
Hypothesis P_sleep : forall seconds, P (EvSleep seconds).
Hypothesis P_json : forall path elements failed,
  P (EvWriteJson path elements failed).
Hypothesis P_csv : forall path records, P (EvWriteCsv path records).







End RegionRequests.

Section RegionRequestsOf.

Context {F : Type} `{PyFloat F} {World : Type}.
Variable send : request -> World -> response * World.
Variable path_exists : string -> World -> bool.




End RegionRequestsOf.
